(** * crypto-toolkit: AES-256-GCM wrapper and text encoders

    A shallow embedding of [src/encoders.ts] and [src/aes-gcm.ts].

    - JavaScript strings are sequences of UTF-16 code units ([list Z]).
    - The elements of a [Uint8Array] are [byte]s; a store into a
      [Uint8Array] wraps modulo 256 ([ToUint8]).
    - A thrown exception / rejected promise is the left injection of a sum,
      a returned value / fulfilled promise the right one.
    - The Base64 functions neither keep nor share their arguments, so a
      [Uint8Array] is given to them as the list of its elements; the
      AES-GCM functions and [bytesToUtf8] work on views of buffers in a
      heap, where sharing can be observed.
    - [tagLength], a JavaScript number, is an integer here; the code only
      passes it on.
    - [importKey], [encrypt] and [decrypt] read the arrays of their
      caller before their one [await], so what other code does while they
      are suspended does not change the calls they make; they are run to
      fulfilment or rejection in one go.  [deriveKeyFromPassword] reads
      [salt] after its first [await]: there the code that runs in between
      is part of the model.
    - The platform functions the code calls ([btoa], [atob], [TextDecoder],
      [crypto.subtle], [crypto.getRandomValues]) are not part of the
      repository.  [btoa] and [atob] are fixed by the HTML and Infra
      standards and are written out; the cryptographic provider and the
      text decoder are an interface ([Host]). *)

From Stdlib Require Import ZArith List String Bool Lia ZifyNat.
From Stdlib.Strings Require Import Byte.
From stdpp Require Import base option list.
Import ListNotations.

Local Open Scope Z_scope.

(** ** Values shared by both modules *)

(** A JavaScript string: its UTF-16 code units. *)
Abbreviation jsstring := (list Z) (only parsing).

(** The code units of an ASCII literal. *)
Definition js (s : string) : jsstring :=
  map (fun a => Z.of_N (Ascii.N_of_ascii a)) (list_ascii_of_string s).

(** What JavaScript code can throw here.  [Error] and [TypeError] carry
    their message, a [DOMException] its name. *)
Inductive exn : Type :=
| Error (message : string)
| TypeError (message : string)
| DOMException (name : string).

Abbreviation result A := (exn + A)%type (only parsing).

Definition code_of_byte (b : byte) : Z := Z.of_N (Byte.to_N b).

(** The conversion applied by a store into a [Uint8Array]. *)
Definition ToUint8 (z : Z) : byte :=
  match Byte.of_N (Z.to_N (z mod 256)) with
  | Some b => b
  | None => x00
  end.

(** [String.fromCharCode(n)]: one code unit, [n] modulo 2^16. *)
Definition fromCharCode (n : Z) : Z := n mod 65536.

(** [s.charCodeAt(i)]; [None] stands for [NaN] (index out of range). *)
Definition charCodeAt (s : jsstring) (i : nat) : option Z := s !! i.

(** ** The platform's Base64 ([btoa] / [atob]) *)

Module Base64.

(** The character of a 6-bit value in the RFC 4648 standard alphabet. *)
Definition b64_char (v : Z) : Z :=
  if v <? 26 then 65 + v
  else if v <? 52 then 97 + (v - 26)
  else if v <? 62 then 48 + (v - 52)
  else if v =? 62 then 43
  else 47.

(** The 6-bit value of a character, [None] outside the 64-character
    alphabet ('=' is not in it). *)
Definition b64_value (c : Z) : option Z :=
  if (65 <=? c) && (c <=? 90) then Some (c - 65)
  else if (97 <=? c) && (c <=? 122) then Some (c - 71)
  else if (48 <=? c) && (c <=? 57) then Some (c + 4)
  else if c =? 43 then Some 62
  else if c =? 47 then Some 63
  else None.

(** The 6-bit values of a byte sequence (RFC 4648, section 4): three bytes
    give four values; a final group of one byte gives two values, of two
    bytes three, the missing bits being zero. *)
Fixpoint sextets (l : list Z) : list Z :=
  match l with
  | [] => []
  | [a] => [a / 4; a mod 4 * 16]
  | [a; b] => [a / 4; a mod 4 * 16 + b / 16; b mod 16 * 4]
  | a :: b :: c :: rest =>
      a / 4 :: a mod 4 * 16 + b / 16 :: b mod 16 * 4 + c / 64 :: c mod 64
      :: sextets rest
  end.

(** The '=' signs that complete the last group of four characters. *)
Definition padding (n : nat) : jsstring :=
  replicate ((3 - n mod 3) mod 3)%nat 61.

(** Infra: forgiving-base64 encode = RFC 4648 section 4, with padding. *)
Definition base64_encode (l : list Z) : jsstring :=
  map b64_char (sextets l) ++ padding (length l).

(** HTML: [btoa(data)] throws InvalidCharacterError when [data] has a code
    unit above U+00FF, and otherwise encodes the code units as bytes. *)
Definition btoa (data : jsstring) : result jsstring :=
  if forallb (fun c => c <=? 255) data
  then inr (base64_encode data)
  else inl (DOMException "InvalidCharacterError").

Definition is_ascii_whitespace (c : Z) : bool :=
  (c =? 9) || (c =? 10) || (c =? 12) || (c =? 13) || (c =? 32).

(** Removes one trailing '=' when there is one. *)
Definition drop_trailing_eq (data : jsstring) : jsstring :=
  match rev data with
  | c :: r => if c =? 61 then rev r else data
  | [] => data
  end.

(** Infra, forgiving-base64 decode, step 2: when the length is a multiple
    of 4, one or two trailing '=' are removed. *)
Definition strip_padding (data : jsstring) : jsstring :=
  if (length data mod 4 =? 0)%nat
  then drop_trailing_eq (drop_trailing_eq data)
  else data.

(** Step 5 onwards: 6 bits per character, a byte out for every 8 bits,
    left-over bits (4 after two characters, 2 after three) discarded. *)
Fixpoint octets (vs : list Z) : list Z :=
  match vs with
  | a :: b :: c :: d :: rest =>
      (a * 4 + b / 16) :: (b mod 16 * 16 + c / 4) :: (c mod 4 * 64 + d)
      :: octets rest
  | [a; b; c] => [a * 4 + b / 16; b mod 16 * 16 + c / 4]
  | [a; b] => [a * 4 + b / 16]
  | _ => []
  end.

Definition forgiving_base64_decode (data : jsstring) : option (list Z) :=
  let data := filter (fun c => is_ascii_whitespace c = false) data in
  let data := strip_padding data in
  if (length data mod 4 =? 1)%nat then None
  else octets <$> mapM b64_value data.

(** HTML: [atob(data)] throws InvalidCharacterError when forgiving-base64
    decode fails; otherwise the decoded bytes, as a binary string. *)
Definition atob (data : jsstring) : result jsstring :=
  match forgiving_base64_decode data with
  | Some bs => inr bs
  | None => inl (DOMException "InvalidCharacterError")
  end.

End Base64.

(** ** The platform: ArrayBuffers, the provider, effects *)

(** An [ArrayBuffer] is a cell of the heap; its address identifies it. *)
Abbreviation loc := nat (only parsing).

(** An [ArrayBufferView] (here always used with one-byte elements, so
    [byteLength] is also the [length] of a [Uint8Array]): a window on an
    [ArrayBuffer].  Two views with the same [buffer] share storage. *)
Record view : Type := {
  buffer : loc;
  byteOffset : nat;
  byteLength : nat
}.

Abbreviation Uint8Array := view (only parsing).


(** The algorithm parameters as the provider sees them: WebCrypto copies
    the bytes of [iv] and [additionalData] when the call is made. *)
Record AesGcmAlgorithm : Type := {
  alg_name : string;
  alg_iv : list byte;
  alg_additionalData : option (list byte);
  alg_tagLength : Z
}.

(** What the provider rejects with: a [DOMException] (OperationError,
    DataError, ...) or a [TypeError]; never a plain [Error]. *)
Inductive rejection : Type :=
| RejectDOMException (name : string)
| RejectTypeError (message : string).

Definition exn_of_rejection (r : rejection) : exn :=
  match r with
  | RejectDOMException n => DOMException n
  | RejectTypeError m => TypeError m
  end.

(** The external collaborators: [crypto.subtle], the entropy source behind
    [crypto.getRandomValues], and [TextDecoder.decode] (non-fatal, so
    total).  The cipher itself is never implemented by the repository. *)
Class Host : Type := {
  CryptoKey : Type;
  Entropy : Type;
  random_byte : Entropy -> byte * Entropy;
  subtle_importKey :
    string -> list byte -> string -> bool -> list string ->
    rejection + CryptoKey;
  subtle_encrypt :
    AesGcmAlgorithm -> CryptoKey -> list byte -> rejection + list byte;
  subtle_decrypt :
    AesGcmAlgorithm -> CryptoKey -> list byte -> rejection + list byte;
  text_decode : list byte -> jsstring
}.

Section Platform.
Context `{host : Host}.

(** The calls made to the external collaborators, with the bytes they
    were given. *)
Inductive call : Type :=
| GetRandomValues (n : nat)
| SubtleImportKey (format : string) (keyData : list byte) (algorithm : string)
    (extractable : bool) (usages : list string)
| SubtleEncrypt (alg : AesGcmAlgorithm) (key : CryptoKey) (data : list byte)
| SubtleDecrypt (alg : AesGcmAlgorithm) (key : CryptoKey) (data : list byte)
| TextDecode (data : list byte).

Record world : Type := {
  heap : list (list byte);     (* the ArrayBuffers allocated so far *)
  entropy : Entropy;
  calls : list call            (* oldest first *)
}.

(** Code that may allocate, call the provider and throw.  [await] is
    sequencing: one call runs to fulfilment or rejection. *)
Definition M (A : Type) : Type := world -> result A * world.

Definition throw {A} (e : exn) : M A := fun w => (inl e, w).

#[export] Instance M_ret : MRet M := fun A a w => (inr a, w).

#[export] Instance M_bind : MBind M := fun A B f m w =>
  match m w with
  | (inl e, w') => (inl e, w')
  | (inr a, w') => f a w'
  end.

Definition buffer_bytes (h : list (list byte)) (l : loc) : list byte :=
  default [] (h !! l).

(** The bytes a view shows. *)
Definition view_bytes (h : list (list byte)) (v : view) : list byte :=
  take (byteLength v) (drop (byteOffset v) (buffer_bytes h v.(buffer))).

(** Allocation of a new [ArrayBuffer] holding [bs]. *)
Definition alloc (bs : list byte) : M loc := fun w =>
  (inr (length (heap w)),
   {| heap := heap w ++ [bs]; entropy := entropy w; calls := calls w |}).

Definition log (c : call) : M unit := fun w =>
  (inr tt, {| heap := heap w; entropy := entropy w; calls := calls w ++ [c] |}).

(** [new Uint8Array(n)]: a fresh zero-filled buffer and a view of all of
    it. *)
Definition new_Uint8Array (n : nat) : M Uint8Array :=
  l ← alloc (replicate n x00);
  mret {| buffer := l; byteOffset := 0; byteLength := n |}.

(** [new Uint8Array(ab)] for an [ArrayBuffer]: a view of all of it, no
    copy. *)
Definition Uint8Array_of_buffer (ab : loc) : M Uint8Array := fun w =>
  (inr {| buffer := ab; byteOffset := 0;
          byteLength := length (buffer_bytes (heap w) ab) |}, w).

(** [v.slice()]: a copy in a fresh buffer. *)
Definition slice (v : Uint8Array) : M Uint8Array := fun w =>
  (l ← alloc (view_bytes (heap w) v);
   mret {| buffer := l; byteOffset := 0; byteLength := byteLength v |}) w.

(** [v[i] = b], a store through a view: out of range it does nothing. *)
Definition store_byte (v : Uint8Array) (i : nat) (b : byte) : M unit := fun w =>
  (inr tt,
   if decide (i < byteLength v)%nat
   then {| heap := alter (fun bs => <[(byteOffset v + i)%nat := b]> bs)
                         v.(buffer) (heap w);
           entropy := entropy w; calls := calls w |}
   else w).

Fixpoint random_bytes (n : nat) (e : Entropy) : list byte * Entropy :=
  match n with
  | O => ([], e)
  | S n' =>
      let (b, e1) := random_byte e in
      let (bs, e2) := random_bytes n' e1 in
      (b :: bs, e2)
  end.

(** [crypto.getRandomValues(v)]: every element of [v] is overwritten in
    place. *)
Definition getRandomValues (v : Uint8Array) : M unit := fun w =>
  let (bs, e') := random_bytes (byteLength v) (entropy w) in
  (inr tt,
   {| heap := alter (fun old => take (byteOffset v) old ++ bs
                                ++ drop (byteOffset v + byteLength v) old)
                    v.(buffer) (heap w);
      entropy := e';
      calls := calls w ++ [GetRandomValues (byteLength v)] |}).

(** Awaiting a provider promise: a rejection is thrown as it is. *)
Definition await {A} (r : rejection + A) : M A :=
  match r with
  | inl rej => throw (exn_of_rejection rej)
  | inr a => mret a
  end.

(** [crypto.subtle.importKey(format, keyData, { name }, extractable,
    usages)]. *)
Definition crypto_subtle_importKey (format : string) (keyData : Uint8Array)
    (algorithm : string) (extractable : bool) (usages : list string)
    : M CryptoKey := fun w =>
  let kd := view_bytes (heap w) keyData in
  (log (SubtleImportKey format kd algorithm extractable usages);;
   await (subtle_importKey format kd algorithm extractable usages)) w.


End Platform.

(** ** src/encoders.ts *)

Module Encoders.
Import Base64.

(** The spec's name for the failure of a Base64 decode. *)
Definition InvalidEncoding : exn := DOMException "InvalidCharacterError".

(** [toBase64]: the loop appends [String.fromCharCode(bytes[i])] for every
    index, then [btoa]. *)
Definition toBase64 (bytes : list byte) : result jsstring :=
  let binary := map (fun b => fromCharCode (code_of_byte b)) bytes in
  btoa binary.

(** [fromBase64]: [atob], then [bytes[i] = binary.charCodeAt(i)]. *)
Definition fromBase64 (b64 : jsstring) : result (list byte) :=
  match atob b64 with
  | inl e => inl e
  | inr binary => inr (map ToUint8 binary)
  end.

(** The loop [while (end > 0 && b64.charCodeAt(end - 1) === 61) end--]. *)
Fixpoint strip_end (b64 : jsstring) (end_ : nat) : nat :=
  match end_ with
  | O => O
  | S e =>
      match charCodeAt b64 e with
      | Some ch => if ch =? 61 then strip_end b64 e else end_
      | None => end_
      end
  end.

(** One step of the translation loop of [toBase64Url]. *)
Definition url_char (ch : Z) : Z :=
  if ch =? 43 then 45 else if ch =? 47 then 95 else ch.

Definition toBase64Url (bytes : list byte) : result jsstring :=
  match toBase64 bytes with
  | inl e => inl e
  | inr b64 =>
      let end_ := strip_end b64 (length b64) in
      let noPad := take end_ b64 in
      inr (map url_char noPad)
  end.

(** [s.replace(/c/g, d)] for single characters. *)
Definition replace_all (c d : Z) (s : jsstring) : jsstring :=
  map (fun x => if x =? c then d else x) s.

(** [fromBase64Url]: ['==='.slice(k)] drops the first [k] characters. *)
Definition fromBase64Url (b64url : jsstring) : result (list byte) :=
  let padded :=
    replace_all 95 47 (replace_all 45 43 b64url)
    ++ drop ((length b64url + 3) mod 4)%nat (js "===") in
  fromBase64 padded.

Section WithHost.
Context `{host : Host}.






End WithHost.

End Encoders.

(** ** src/aes-gcm.ts *)

Module AesGcm.

(** [AesGcmOptions]: every field optional. *)
Record AesGcmOptions : Type := {
  opts_iv : option Uint8Array;
  opts_aad : option Uint8Array;
  opts_tagLength : option Z
}.

(** The default value [{}] of the [opts] parameter. *)
Definition no_opts : AesGcmOptions :=
  {| opts_iv := None; opts_aad := None; opts_tagLength := None |}.

(** The [AesGcmParams] object built by [encrypt] and [decrypt]: it holds
    the caller's views, not copies. *)
Record AesGcmParams : Type := {
  params_name : string;
  params_iv : Uint8Array;
  params_additionalData : option Uint8Array;
  params_tagLength : Z
}.

(** The object [{ iv, ciphertext }] returned by [encrypt]. *)
Record EncryptResult : Type := {
  res_iv : Uint8Array;
  res_ciphertext : Uint8Array
}.

Definition DEFAULT_IV_BYTES : nat := 12.
Definition DEFAULT_TAG_BITS : Z := 128.

(** The two errors the module throws itself. *)
Definition InvalidKeyLength : exn :=
  Error "AES-GCM requires 32-byte key (AES-256)".
Definition InvalidIvLength : exn := Error "AES-GCM IV must be 12 bytes".

Section WithHost.
Context `{host : Host}.

(** The provider reading the parameter object at the time of the call. *)
Definition normalize (h : list (list byte)) (p : AesGcmParams)
    : AesGcmAlgorithm :=
  {| alg_name := params_name p;
     alg_iv := view_bytes h (params_iv p);
     alg_additionalData := view_bytes h <$> params_additionalData p;
     alg_tagLength := params_tagLength p |}.

(** [await crypto.subtle.encrypt(params, key, data)]: fulfilled with a new
    [ArrayBuffer]. *)
Definition crypto_subtle_encrypt (params : AesGcmParams) (key : CryptoKey)
    (data : Uint8Array) : M loc := fun w =>
  let alg := normalize (heap w) params in
  let d := view_bytes (heap w) data in
  (log (SubtleEncrypt alg key d);;
   ct ← await (subtle_encrypt alg key d);
   alloc ct) w.

(** [await crypto.subtle.decrypt(params, key, data)]. *)
Definition crypto_subtle_decrypt (params : AesGcmParams) (key : CryptoKey)
    (data : Uint8Array) : M loc := fun w =>
  let alg := normalize (heap w) params in
  let d := view_bytes (heap w) data in
  (log (SubtleDecrypt alg key d);;
   pt ← await (subtle_decrypt alg key d);
   alloc pt) w.

Definition importKey (rawKey : Uint8Array) : M CryptoKey :=
  if negb (byteLength rawKey =? 32)%nat
  then throw InvalidKeyLength
  else
    keyData ← slice rawKey;
    crypto_subtle_importKey "raw" keyData "AES-GCM" true
      ["encrypt"; "decrypt"]%string.

Definition randomIv : M Uint8Array :=
  iv ← new_Uint8Array DEFAULT_IV_BYTES;
  getRandomValues iv;;
  mret iv.

Definition encrypt (key : CryptoKey) (plaintext : Uint8Array)
    (opts : AesGcmOptions) : M EncryptResult :=
  iv ← match opts_iv opts with
       | Some iv => mret iv
       | None => randomIv
       end;
  if negb (byteLength iv =? DEFAULT_IV_BYTES)%nat
  then throw InvalidIvLength
  else
    let tagLength := default DEFAULT_TAG_BITS (opts_tagLength opts) in
    let params :=
      {| params_name := "AES-GCM";
         params_iv := iv;
         params_additionalData := opts_aad opts;
         params_tagLength := tagLength |} in
    ct ← crypto_subtle_encrypt params key plaintext;
    ciphertext ← Uint8Array_of_buffer ct;
    mret {| res_iv := iv; res_ciphertext := ciphertext |}.

(** [decrypt] takes the iv as an argument; the [iv] field of [opts] is
    not part of its type and is not read. *)
Definition decrypt (key : CryptoKey) (iv : Uint8Array)
    (ciphertext : Uint8Array) (opts : AesGcmOptions) : M Uint8Array :=
  if negb (byteLength iv =? DEFAULT_IV_BYTES)%nat
  then throw InvalidIvLength
  else
    let tagLength := default DEFAULT_TAG_BITS (opts_tagLength opts) in
    let params :=
      {| params_name := "AES-GCM";
         params_iv := iv;
         params_additionalData := opts_aad opts;
         params_tagLength := tagLength |} in
    pt ← crypto_subtle_decrypt params key ciphertext;
    Uint8Array_of_buffer pt.

End WithHost.

End AesGcm.

Import Base64 Encoders AesGcm.

(** ** The contract of the provider, and a host to run the embedding *)

Section Contract.
Context `{host : Host}.

(** A view lies inside its buffer, as every live typed array does. *)
Definition view_ok (h : list (list byte)) (v : view) : Prop :=
  (byteOffset v + byteLength v <= length (buffer_bytes h v.(buffer)))%nat.

(** The buffer of a view was allocated. *)
Definition live (h : list (list byte)) (v : view) : Prop :=
  (v.(buffer) < length h)%nat.

(** The raw import [importKey] asks of the provider. *)
Definition import_raw (keyData : list byte) : rejection + CryptoKey :=
  subtle_importKey "raw" keyData "AES-GCM" true ["encrypt"; "decrypt"]%string.

(** A key admitted by [importKey]: what the provider's raw import
    returned. *)
Definition admitted (key : CryptoKey) : Prop :=
  exists raw, import_raw raw = inr key.

(** The tag lengths the module documents. *)
Definition legal_tagLength (t : Z) : Prop :=
  t = 96 \/ t = 104 \/ t = 112 \/ t = 120 \/ t = 128.

(** What WebCrypto promises about AES-GCM: 256-bit raw keys are imported;
    under an imported key, decryption with the parameters of the
    encryption returns the plaintext; encryption with a 12-byte iv and a
    legal tag length is fulfilled. *)
Class HostLaws : Prop := {
  import_raw_256 :
    forall raw, length raw = 32%nat -> exists key, import_raw raw = inr key;
  decrypt_encrypt :
    forall key alg pt ct,
      admitted key ->
      subtle_encrypt alg key pt = inr ct ->
      subtle_decrypt alg key ct = inr pt;
  encrypt_fulfilled :
    forall key alg pt,
      admitted key ->
      alg_name alg = "AES-GCM"%string ->
      length (alg_iv alg) = 12%nat ->
      legal_tagLength (alg_tagLength alg) ->
      exists ct, subtle_encrypt alg key pt = inr ct
}.

End Contract.

Arguments HostLaws : clear implicits.

(** A small host on which the definitions run: keys are their raw bytes,
    the "cipher" appends a checksum tag of the requested length to the
    data, the entropy source is a counter.  It has none of the secrecy of
    AES-GCM; it only shows the contract above can be met. *)
Module ModelHost.

Definition checksum (bs : list byte) : byte :=
  ToUint8 (fold_right (fun b acc => code_of_byte b + acc) 0 bs).

Definition tag (alg : AesGcmAlgorithm) (key body : list byte) : list byte :=
  replicate (Z.to_nat (alg_tagLength alg / 8))
    (checksum (key ++ alg_iv alg ++ default [] (alg_additionalData alg) ++ body)).

Fixpoint bytes_eqb (l k : list byte) : bool :=
  match l, k with
  | [], [] => true
  | a :: l', b :: k' => Byte.eqb a b && bytes_eqb l' k'
  | _, _ => false
  end.

Definition supported (alg : AesGcmAlgorithm) : bool :=
  (alg_name alg =? "AES-GCM")%string
  && existsb (Z.eqb (alg_tagLength alg)) [32; 64; 96; 104; 112; 120; 128]
  && negb (length (alg_iv alg) =? 0)%nat.

Definition OperationError {A} : rejection + A :=
  inl (RejectDOMException "OperationError").

Definition model_importKey (format : string) (keyData : list byte)
    (algorithm : string) (extractable : bool) (usages : list string)
    : rejection + list byte :=
  if (format =? "raw")%string && (algorithm =? "AES-GCM")%string
     && existsb (Nat.eqb (length keyData)) [16; 24; 32]%nat
  then inr keyData
  else inl (RejectDOMException "DataError").

Definition model_encrypt (alg : AesGcmAlgorithm) (key data : list byte)
    : rejection + list byte :=
  if supported alg then inr (data ++ tag alg key data) else OperationError.

Definition model_decrypt (alg : AesGcmAlgorithm) (key data : list byte)
    : rejection + list byte :=
  if supported alg then
    let n := Z.to_nat (alg_tagLength alg / 8) in
    let body := take (length data - n) data in
    if (n <=? length data)%nat
       && bytes_eqb (drop (length data - n) data) (tag alg key body)
    then inr body
    else OperationError
  else OperationError.

#[export] Instance model_host : Host := {|
  CryptoKey := list byte;
  Entropy := nat;
  random_byte := fun n => (ToUint8 (Z.of_nat (7 * n + 3)), S n);
  subtle_importKey := model_importKey;
  subtle_encrypt := model_encrypt;
  subtle_decrypt := model_decrypt;
  text_decode := map code_of_byte
|}.

End ModelHost.

(** ** Notions used to state the properties *)

(** A byte value and a 6-bit value. *)
Definition is_octet (z : Z) : Prop := 0 <= z < 256.
Definition is_sextet (z : Z) : Prop := 0 <= z < 64.

(** A character with a value in the alphabet. *)
Definition in_alphabet (c : Z) : Prop := is_Some (b64_value c).

(** A character of the 64-character standard alphabet ('=' excluded). *)
Definition is_alphabet (c : Z) : Prop :=
  65 <= c <= 90 \/ 97 <= c <= 122 \/ 48 <= c <= 57 \/ c = 43 \/ c = 47.

(** The texts the forgiving decoder accepts: once ASCII whitespace is taken
    out, a body over the alphabet whose length is not 1 modulo 4, or a body
    followed by one or two '=' that bring the length to a multiple of 4. *)
Definition well_formed_base64 (s : jsstring) : Prop :=
  exists body pad,
    filter (fun c => is_ascii_whitespace c = false) s = body ++ pad /\
    Forall is_alphabet body /\
    ((pad = [] /\ (length body mod 4)%nat <> 1%nat) \/
     ((pad = [61] \/ pad = [61; 61]) /\ (length (body ++ pad) mod 4)%nat = 0%nat)).

Section Outcomes.
Context `{host : Host}.

(** The algorithm object the provider receives from [encrypt] and
    [decrypt]. *)
Definition algorithm_of (h : list (list byte)) (iv : view)
    (aad : option view) (tagLength : option Z) : AesGcmAlgorithm :=
  {| alg_name := "AES-GCM";
     alg_iv := view_bytes h iv;
     alg_additionalData := view_bytes h <$> aad;
     alg_tagLength := default DEFAULT_TAG_BITS tagLength |}.

Definition logged (c : call) (w : world) : world :=
  {| heap := heap w; entropy := entropy w; calls := calls w ++ [c] |}.

Definition allocated (bs : list byte) (w : world) : world :=
  {| heap := heap w ++ [bs]; entropy := entropy w; calls := calls w |}.

Definition whole (l : loc) (n : nat) : view :=
  {| buffer := l; byteOffset := 0; byteLength := n |}.

(** The world after [randomIv]: one more buffer, holding the provider's
    twelve bytes. *)
Definition after_randomIv (w : world) : world :=
  {| heap := heap w ++ [fst (random_bytes 12 (entropy w))];
     entropy := snd (random_bytes 12 (entropy w));
     calls := calls w ++ [GetRandomValues 12] |}.

(** What [encrypt] does for any options: the iv is the caller's, or a
    fresh one when absent; then the length check; then one call to the
    provider, whose outcome is the outcome. *)
Definition chosen_iv (opts : AesGcmOptions) (w : world) : Uint8Array * world :=
  match opts_iv opts with
  | Some iv => (iv, w)
  | None => (whole (length (heap w)) 12, after_randomIv w)
  end.

End Outcomes.

(** Inputs on which the properties are run with the model host. *)
Module Demo.
Import ModelHost.

Definition key_bytes : list byte := replicate 32 x2a.
Definition short_key_bytes : list byte := replicate 16 x2a.
Definition pt_bytes : list byte := [x68; x69].
Definition iv_bytes : list byte := replicate 12 x07.
Definition aad_bytes : list byte := [x01].

(** Buffers 0 to 4: a key, a plaintext, an iv, associated data, a short
    key. *)
Definition demo_world : @world model_host :=
  {| heap := [key_bytes; pt_bytes; iv_bytes; aad_bytes; short_key_bytes];
     entropy := 0%nat;
     calls := [] |}.

(** A second key, with the checksum of [key_bytes]. *)
Definition other_key_bytes : list byte := [x29; x2b] ++ replicate 30 x2a.

Definition demo_opts : AesGcmOptions :=
  {| opts_iv := Some (whole 2 12);
     opts_aad := Some (whole 3 1);
     opts_tagLength := Some 96 |}.

End Demo.

(** ** Further notions for the encoders *)

(** A character of the URL-safe alphabet: A-Z a-z 0-9 - _ . *)
Definition is_url_safe (c : Z) : Prop :=
  65 <= c <= 90 \/ 97 <= c <= 122 \/ 48 <= c <= 57 \/ c = 45 \/ c = 95.

(** [s.split(sep)] for a separator of one character. *)
Fixpoint split_on (sep : Z) (s : jsstring) : list jsstring :=
  match s with
  | [] => [[]]
  | c :: s' =>
      if c =? sep then [] :: split_on sep s'
      else match split_on sep s' with
           | field :: fields => (c :: field) :: fields
           | [] => [[c]]
           end
  end.

(** A character [fromBase64Url] can take: of the URL-safe or of the
    standard alphabet. *)
Definition is_url_or_standard (c : Z) : Prop :=
  is_alphabet c \/ c = 45 \/ c = 95.

(** The text [toBase64Url] returns for the bytes [B]. *)
Definition url_text (B : list byte) : jsstring :=
  map url_char (map b64_char (sextets (map code_of_byte B))).


(** ** [concatBytes] *)

(** [concatBytes] uses [TypedArray.prototype.set], which throws a
    [RangeError]; what code can throw is widened by it. *)
Inductive js_exn : Type :=
| Thrown (e : exn)
| RangeError (message : string).

Section Concat.
Context `{host : Host}.

Definition M' (A : Type) : Type := world -> (js_exn + A) * world.

#[export] Instance M'_ret : MRet M' := fun A a w => (inr a, w).

#[export] Instance M'_bind : MBind M' := fun A B f m w =>
  match m w with
  | (inl e, w') => (inl e, w')
  | (inr a, w') => f a w'
  end.

Definition lift {A} (m : M A) : M' A := fun w =>
  match m w with
  | (inl e, w') => (inl (Thrown e), w')
  | (inr a, w') => (inr a, w')
  end.

(** [target.set(source, offset)]: the elements of [source] are copied
    into [target] from index [offset]; a [RangeError] when they do not
    fit. *)
Definition typed_array_set (target source : Uint8Array) (offset : nat)
    : M' unit := fun w =>
  if (offset + byteLength source <=? byteLength target)%nat
  then
    (inr tt,
     {| heap :=
          alter (fun old =>
                   take (byteOffset target + offset) old
                   ++ view_bytes (heap w) source
                   ++ drop (byteOffset target + offset + byteLength source) old)
                target.(buffer) (heap w);
        entropy := entropy w;
        calls := calls w |})
  else (inl (RangeError "offset is out of bounds"), w).

Definition concatBytes (a b : Uint8Array) : M' Uint8Array :=
  out ← lift (new_Uint8Array (byteLength a + byteLength b));
  typed_array_set out a 0;;
  typed_array_set out b (byteLength a);;
  mret out.

(** A typed array the caller can hold: its buffer exists and the view lies
    inside it. *)
Definition valid (h : list (list byte)) (v : view) : Prop :=
  live h v /\ view_ok h v.

End Concat.


(** ** Notions for the frame of the AES-GCM functions *)

(** The heap [h'] is [h] with buffers added: no buffer of [h] was written
    to or removed. *)
Definition extends (h h' : list (list byte)) : Prop :=
  exists added, h' = h ++ added.


(** ** The usage shown in the README *)

Section Transport.
Context `{host : Host}.

(** [toBase64Url(v)] for an array in the heap: its elements are read. *)
Definition toBase64Url_of (v : Uint8Array) : M jsstring := fun w =>
  match toBase64Url (view_bytes (heap w) v) with
  | inl e => (inl e, w)
  | inr text => (inr text, w)
  end.

(** [fromBase64Url(text)] returning its bytes in a new [Uint8Array]. *)
Definition fromBase64Url_new (text : jsstring) : M Uint8Array :=
  match fromBase64Url text with
  | inl e => throw e
  | inr bytes =>
      l ← alloc bytes;
      mret {| buffer := l; byteOffset := 0; byteLength := length bytes |}
  end.

(** README, "Usage", from [randomIv()] to [decrypt(...)], for any key and
    plaintext: encrypt, pack iv and ciphertext as
    [`${toBase64Url(iv)}.${toBase64Url(ciphertext)}`], split the packed
    text at ".", decode both fields and decrypt.  With fewer than two
    fields [fromBase64Url(undefined)] throws a [TypeError]. *)
Definition demo_transport (key : CryptoKey) (plaintext : Uint8Array)
    : M Uint8Array :=
  iv ← randomIv;
  r ← encrypt key plaintext
        {| opts_iv := Some iv; opts_aad := None; opts_tagLength := None |};
  ivText ← toBase64Url_of iv;
  ctText ← toBase64Url_of (res_ciphertext r);
  let packed := ivText ++ js "." ++ ctText in
  match split_on 46 packed with
  | ivB64 :: ctB64 :: _ =>
      iv' ← fromBase64Url_new ivB64;
      ct' ← fromBase64Url_new ctB64;
      decrypt key iv' ct' no_opts
  | _ => throw (TypeError "Cannot read properties of undefined")
  end.

End Transport.


(** ** [deriveKeyFromPassword] *)

(** The PBKDF2 parameters as the provider sees them. *)
Record Pbkdf2Params : Type := {
  kdf_name : string;
  kdf_hash : string;
  kdf_salt : list byte;
  kdf_iterations : Z
}.

(** What [deriveKeyFromPassword] needs of the platform besides [Host]:
    [TextEncoder.encode] and [crypto.subtle.deriveBits]. *)
Class KdfHost (host : Host) : Type := {
  text_encode : jsstring -> list byte;
  subtle_deriveBits : Pbkdf2Params -> CryptoKey -> Z -> rejection + list byte
}.

Section Derive.
Context `{host : Host} {kdf : KdfHost host}.

(** [new TextEncoder().encode(text)]: the bytes in a new array. *)
Definition TextEncoder_encode (text : jsstring) : M Uint8Array :=
  l ← alloc (text_encode text);
  mret {| buffer := l; byteOffset := 0;
          byteLength := length (text_encode text) |}.

(** [await call]: the call is made, the function is suspended, and before
    it resumes with the outcome other code runs (the caller, who holds the
    promise, and whatever else is queued).  [others] is what that code does
    to the world: stores through arrays it holds, allocations, calls of its
    own. *)
Definition suspended {A} (others : world -> world) (call : M A) : M A :=
  fun w => (fst (call w), others (snd (call w))).

(** [await crypto.subtle.deriveBits({ name, hash, salt, iterations },
    baseKey, length)]: the provider copies the salt when the call is made;
    the promise is fulfilled with a new [ArrayBuffer], which no other code
    has seen.  (The call log has no entry for it.) *)
Definition crypto_subtle_deriveBits (name hash : string) (salt : Uint8Array)
    (iterations : Z) (baseKey : CryptoKey) (bits : Z)
    (others : world -> world) : M loc := fun w =>
  let params :=
    {| kdf_name := name; kdf_hash := hash;
       kdf_salt := view_bytes (heap w) salt;
       kdf_iterations := iterations |} in
  (derived ← suspended others (await (subtle_deriveBits params baseKey bits));
   alloc derived) w.

(** [deriveKeyFromPassword], with what other code does while the import
    ([while_importing]) and the derivation ([while_deriving]) are pending.
    [salt.slice()] comes after the first [await]. *)
Definition deriveKeyFromPassword (password : jsstring) (salt : Uint8Array)
    (iterations : option Z) (while_importing while_deriving : world -> world)
    : M Uint8Array :=
  let iterations := default 150000 iterations in
  encoded ← TextEncoder_encode password;
  baseKey ← suspended while_importing
              (crypto_subtle_importKey "raw" encoded "PBKDF2" false
                 ["deriveBits"]%string);
  saltBuf ← slice salt;
  bits ← crypto_subtle_deriveBits "PBKDF2" "SHA-256" saltBuf iterations
           baseKey 256 while_deriving;
  Uint8Array_of_buffer bits.

(** What WebCrypto promises about [deriveBits]: as many bits as were asked
    for. *)
Definition deriveBits_length : Prop :=
  forall params baseKey bits derived,
    subtle_deriveBits params baseKey bits = inr derived ->
    Z.of_nat (length derived) * 8 = bits.

(** The world when the import of the password has settled and
    [deriveKeyFromPassword] resumes. *)
Definition import_settled (password : jsstring)
    (while_importing : world -> world) (w : world) : world :=
  let pw := text_encode password in
  while_importing
    (logged (SubtleImportKey "raw" pw "PBKDF2" false ["deriveBits"]%string)
       (allocated pw w)).

(** The outcome of [deriveKeyFromPassword], step by step. *)
Definition derivation (password : jsstring) (salt : Uint8Array)
    (iterations : option Z) (while_importing while_deriving : world -> world)
    (w : world) : result Uint8Array * world :=
  let pw := text_encode password in
  let w1 := import_settled password while_importing w in
  match subtle_importKey "raw" pw "PBKDF2" false ["deriveBits"]%string with
  | inl rej => (inl (exn_of_rejection rej), w1)
  | inr baseKey =>
      let salt_bytes := view_bytes (heap w1) salt in
      let params :=
        {| kdf_name := "PBKDF2"; kdf_hash := "SHA-256";
           kdf_salt := salt_bytes;
           kdf_iterations := match iterations with
                             | Some n => n
                             | None => 150000
                             end |} in
      let w2 := while_deriving (allocated salt_bytes w1) in
      match subtle_deriveBits params baseKey 256 with
      | inl rej => (inl (exn_of_rejection rej), w2)
      | inr derived =>
          (inr (whole (length (heap w2)) (length derived)),
           allocated derived w2)
      end
  end.

(** Code that only adds buffers. *)
Definition only_adds (others : world -> world) : Prop :=
  forall u, extends (heap u) (heap (others u)).

End Derive.

(** A host for running [deriveKeyFromPassword]: the model host, taking
    PBKDF2 base keys as well; derived bits are a checksum repeated. *)
Module KdfModel.
Import ModelHost.

Definition kdf_importKey (format : string) (keyData : list byte)
    (algorithm : string) (extractable : bool) (usages : list string)
    : rejection + list byte :=
  if (algorithm =? "PBKDF2")%string
  then if (format =? "raw")%string then inr keyData
       else inl (RejectDOMException "NotSupportedError")
  else model_importKey format keyData algorithm extractable usages.

Definition kdf_host : Host := {|
  CryptoKey := list byte;
  Entropy := nat;
  random_byte := fun n => (ToUint8 (Z.of_nat (7 * n + 3)), S n);
  subtle_importKey := kdf_importKey;
  subtle_encrypt := model_encrypt;
  subtle_decrypt := model_decrypt;
  text_decode := map code_of_byte
|}.

Definition kdf_deriveBits (params : Pbkdf2Params) (baseKey : list byte)
    (bits : Z) : rejection + list byte :=
  if (0 <? kdf_iterations params) && (0 <=? bits) && (bits mod 8 =? 0)
  then inr (replicate (Z.to_nat (bits / 8))
              (checksum (baseKey ++ kdf_salt params)))
  else OperationError.

Definition kdf_model : KdfHost kdf_host :=
  @Build_KdfHost kdf_host (map ToUint8) kdf_deriveBits.

(** Buffer 0: a salt. *)
Definition kdf_world : @world kdf_host :=
  @Build_world kdf_host [[x01; x02; x03]] 0%nat [].

(** A caller that does not wait: it stores 255 into [salt[1]] while the
    promise is pending. *)
Definition late_store (u : @world kdf_host) : @world kdf_host :=
  snd (store_byte (whole 0 3) 1 xff u).

(** Nothing else runs. *)
Definition nothing (u : @world kdf_host) : @world kdf_host := u.

End KdfModel.

(** * Properties *)

(** [lia] also decides goals with division and remainder by constants. *)
Ltac Zify.zify_post_hook ::= Z.to_euclidean_division_equations.

(** ** Bytes and code units *)

Lemma code_of_byte_range b : 0 <= code_of_byte b < 256.
Proof.
  unfold code_of_byte. pose proof (Byte.to_N_bounded b). lia.
Qed.

Lemma ToUint8_code_of_byte b : ToUint8 (code_of_byte b) = b.
Proof.
  unfold ToUint8. pose proof (code_of_byte_range b) as Hr.
  rewrite Z.mod_small by lia. unfold code_of_byte.
  rewrite N2Z.id. now rewrite Byte.of_to_N.
Qed.

Lemma fromCharCode_byte b : fromCharCode (code_of_byte b) = code_of_byte b.
Proof.
  unfold fromCharCode. pose proof (code_of_byte_range b).
  apply Z.mod_small. lia.
Qed.

(** Induction over a list three elements at a time, as the encoder reads
    it. *)
Lemma list_ind3 {A} (P : list A -> Prop) :
  P [] -> (forall a, P [a]) -> (forall a b, P [a; b]) ->
  (forall a b c l, P l -> P (a :: b :: c :: l)) ->
  forall l, P l.
Proof.
  intros H0 H1 H2 H3.
  fix IH 1. intros [|a [|b [|c l]]].
  - exact H0.
  - apply H1.
  - apply H2.
  - apply H3, IH.
Qed.

(** Case analysis on the comparisons of the goal, closing impossible
    branches at once. *)
Ltac zcases :=
  repeat match goal with
  | |- context [?a <? ?b] => destruct (Z.ltb_spec a b); try lia
  | |- context [?a <=? ?b] => destruct (Z.leb_spec a b); try lia
  | |- context [?a =? ?b] => destruct (Z.eqb_spec a b); try lia
  | |- context [andb _ _] => progress cbn [andb]
  | |- context [orb _ _] => progress cbn [orb]
  end.

Lemma b64_value_char v : is_sextet v -> b64_value (b64_char v) = Some v.
Proof.
  unfold is_sextet, b64_char. intros Hv.
  zcases; unfold b64_value; zcases; f_equal; lia.
Qed.

Lemma b64_value_spec c v :
  b64_value c = Some v <->
  (65 <= c <= 90 /\ v = c - 65) \/ (97 <= c <= 122 /\ v = c - 71) \/
  (48 <= c <= 57 /\ v = c + 4) \/ (c = 43 /\ v = 62) \/ (c = 47 /\ v = 63).
Proof.
  unfold b64_value.
  zcases;
    (split; [intros Hv; inversion Hv; lia | intros Hv; try f_equal; lia]).
Qed.

Lemma b64_value_Some c v :
  b64_value c = Some v ->
  is_sextet v /\ b64_char v = c /\ c <> 61 /\ is_ascii_whitespace c = false
  /\ c <> 45 /\ c <> 95.
Proof.
  rewrite b64_value_spec. unfold is_sextet, b64_char, is_ascii_whitespace.
  intros Hv. repeat split; try lia; zcases; reflexivity.
Qed.

Lemma sextets_range l : Forall is_octet l -> Forall is_sextet (sextets l).
Proof.
  induction l as [|a|a b|a b c l IH] using list_ind3; intros H.
  - constructor.
  - inversion_clear H as [|? ? Ha _]. unfold is_octet, is_sextet in *.
    cbn [sextets]. repeat (constructor; [cbn beta; lia|]). constructor.
  - inversion_clear H as [|? ? Ha H']. inversion_clear H' as [|? ? Hb _].
    unfold is_octet, is_sextet in *.
    cbn [sextets]. repeat (constructor; [cbn beta; lia|]). constructor.
  - inversion_clear H as [|? ? Ha H']. inversion_clear H' as [|? ? Hb H''].
    inversion_clear H'' as [|? ? Hc Hl].
    unfold is_octet, is_sextet in *.
    change (sextets (a :: b :: c :: l)) with
      (a / 4 :: a mod 4 * 16 + b / 16 :: b mod 16 * 4 + c / 64 :: c mod 64
       :: sextets l).
    repeat (constructor; [cbn beta; lia|]). auto.
Qed.

Lemma octets_sextets l : Forall is_octet l -> octets (sextets l) = l.
Proof.
  induction l as [|a|a b|a b c l IH] using list_ind3; intros H.
  - reflexivity.
  - inversion_clear H as [|? ? Ha _]. unfold is_octet in *.
    cbn [sextets octets]. f_equal. lia.
  - inversion_clear H as [|? ? Ha H']. inversion_clear H' as [|? ? Hb _].
    unfold is_octet in *. cbn [sextets octets]. repeat f_equal; lia.
  - inversion_clear H as [|? ? Ha H']. inversion_clear H' as [|? ? Hb H''].
    inversion_clear H'' as [|? ? Hc Hl]. unfold is_octet in *.
    change (sextets (a :: b :: c :: l)) with
      (a / 4 :: a mod 4 * 16 + b / 16 :: b mod 16 * 4 + c / 64 :: c mod 64
       :: sextets l).
    change (octets (?x :: ?y :: ?z :: ?t :: ?r)) with
      ((x * 4 + y / 16) :: (y mod 16 * 16 + z / 4) :: (z mod 4 * 64 + t)
       :: octets r).
    rewrite IH by assumption. repeat f_equal; lia.
Qed.

(** *** Shape of an encoding *)

Lemma in_alphabet_char v : is_sextet v -> in_alphabet (b64_char v).
Proof. intros Hv. unfold in_alphabet. rewrite b64_value_char; eauto. Qed.

Lemma alphabet_map_char vs :
  Forall is_sextet vs -> Forall in_alphabet (map b64_char vs).
Proof.
  induction 1; cbn [map]; constructor; auto using in_alphabet_char.
Qed.

Lemma mapM_value_char vs :
  Forall is_sextet vs -> mapM b64_value (map b64_char vs) = Some vs.
Proof.
  induction 1 as [|v vs Hv _ IH]; [reflexivity|].
  cbn [map mapM]. rewrite b64_value_char by assumption.
  cbn. rewrite IH. reflexivity.
Qed.

Lemma padding_cases n :
  ((n mod 3)%nat = 0%nat /\ padding n = []) \/
  ((n mod 3)%nat = 1%nat /\ padding n = [61; 61]) \/
  ((n mod 3)%nat = 2%nat /\ padding n = [61]).
Proof.
  unfold padding.
  assert ((n mod 3)%nat = 0%nat \/ (n mod 3)%nat = 1%nat
          \/ (n mod 3)%nat = 2%nat) as [E|[E|E]] by lia;
    rewrite E; auto.
Qed.

Lemma length_sextets l :
  (length (sextets l) mod 4)%nat =
  match (length l mod 3)%nat with 0%nat => 0%nat | 1%nat => 2%nat | _ => 3%nat end.
Proof.
  induction l as [|a|a b|a b c l IH] using list_ind3; try reflexivity.
  change (sextets (a :: b :: c :: l)) with
    (a / 4 :: a mod 4 * 16 + b / 16 :: b mod 16 * 4 + c / 64 :: c mod 64
     :: sextets l).
  cbn [length].
  replace (S (S (S (S (length (sextets l)))) ) mod 4)%nat
    with (length (sextets l) mod 4)%nat by lia.
  replace (S (S (S (length l))) mod 3)%nat with (length l mod 3)%nat by lia.
  exact IH.
Qed.

(** *** [atob] inverts [btoa] *)

Lemma filter_all {A} (P : A -> Prop) `{!forall x, Decision (P x)} (l : list A) :
  Forall P l -> filter P l = l.
Proof.
  induction 1 as [|x l Hx _ IH]; [reflexivity|].
  rewrite filter_cons_True by assumption. now rewrite IH.
Qed.

Lemma drop_trailing_eq_snoc s : drop_trailing_eq (s ++ [61]) = s.
Proof.
  unfold drop_trailing_eq. rewrite rev_app_distr. cbn [rev app].
  rewrite Z.eqb_refl. apply rev_involutive.
Qed.

Lemma drop_trailing_eq_id s : Forall (fun c => c <> 61) s -> drop_trailing_eq s = s.
Proof.
  intros Hs. unfold drop_trailing_eq.
  destruct (rev s) as [|c r] eqn:E; [reflexivity|].
  destruct (Z.eqb_spec c 61) as [->|]; [|reflexivity].
  exfalso. rewrite Forall_forall in Hs. apply (Hs 61); [|reflexivity].
  apply list_elem_of_In, in_rev. rewrite E. left. reflexivity.
Qed.

Lemma alphabet_not_eq s : Forall in_alphabet s -> Forall (fun c => c <> 61) s.
Proof.
  intros Hs. eapply Forall_impl; [exact Hs|].
  intros c [v Hv]. apply b64_value_Some in Hv. tauto.
Qed.

Lemma alphabet_not_whitespace s :
  Forall in_alphabet s -> Forall (fun c => is_ascii_whitespace c = false) s.
Proof.
  intros Hs. eapply Forall_impl; [exact Hs|].
  intros c [v Hv]. apply b64_value_Some in Hv. tauto.
Qed.

(** Decoding a well-formed text: a body over the alphabet followed by the
    padding that completes it. *)
Lemma decode_body_pad body pad vs :
  mapM b64_value body = Some vs ->
  (pad = [] /\ (length body mod 4)%nat <> 1%nat) \/
  (pad = [61] /\ (length body mod 4)%nat = 3%nat) \/
  (pad = [61; 61] /\ (length body mod 4)%nat = 2%nat) ->
  forgiving_base64_decode (body ++ pad) = Some (octets vs).
Proof.
  intros Hvs Hpad.
  assert (Forall in_alphabet body) as Hbody.
  { apply mapM_is_Some_1. rewrite Hvs. eauto. }
  pose proof (alphabet_not_eq _ Hbody) as Hne.
  pose proof (alphabet_not_whitespace _ Hbody) as Hws.
  unfold forgiving_base64_decode. cbv zeta.
  rewrite (filter_all (fun c => is_ascii_whitespace c = false)).
  2:{ apply Forall_app. split; [assumption|].
      destruct Hpad as [[-> _]|[[-> _]|[-> _]]]; repeat constructor. }
  assert (strip_padding (body ++ pad) = body) as ->.
  { unfold strip_padding. rewrite length_app.
    destruct Hpad as [[-> Hl]|[[-> Hl]|[-> Hl]]]; cbn [length].
    - rewrite app_nil_r. rewrite !(drop_trailing_eq_id body) by exact Hne.
      now destruct (_ =? _)%nat.
    - replace ((length body + 1) mod 4 =? 0)%nat with true
        by (symmetry; apply Nat.eqb_eq; lia).
      rewrite drop_trailing_eq_snoc. now apply drop_trailing_eq_id.
    - replace ((length body + 2) mod 4 =? 0)%nat with true
        by (symmetry; apply Nat.eqb_eq; lia).
      change (body ++ [61; 61]) with (body ++ [61] ++ [61]).
      rewrite app_assoc, !drop_trailing_eq_snoc. reflexivity. }
  replace (length body mod 4 =? 1)%nat with false.
  2:{ symmetry. apply Nat.eqb_neq. lia. }
  rewrite Hvs. reflexivity.
Qed.

Lemma decode_encode l :
  Forall is_octet l -> forgiving_base64_decode (base64_encode l) = Some l.
Proof.
  intros Hl. unfold base64_encode.
  pose proof (sextets_range l Hl) as Hsx.
  rewrite (decode_body_pad _ _ (sextets l)).
  - now rewrite octets_sextets.
  - now apply mapM_value_char.
  - rewrite length_map. pose proof (length_sextets l) as Hm.
    destruct (padding_cases (length l)) as [[E ->]|[[E ->]|[E ->]]];
      rewrite E in Hm;
      [left | right; right | right; left]; (split; [reflexivity | lia]).
Qed.

(** *** [src/encoders.ts]: Base64 *)

Lemma octets_of_bytes (B : list byte) : Forall is_octet (map code_of_byte B).
Proof.
  induction B as [|b B IH]; cbn [map]; constructor;
    [apply code_of_byte_range | exact IH].
Qed.

Lemma ToUint8_codes (B : list byte) : map ToUint8 (map code_of_byte B) = B.
Proof.
  induction B as [|b B IH]; [reflexivity|].
  cbn [map]. now rewrite ToUint8_code_of_byte, IH.
Qed.

Lemma btoa_octets l : Forall is_octet l -> btoa l = inr (base64_encode l).
Proof.
  intros Hl. unfold btoa.
  replace (forallb (fun c => c <=? 255) l) with true; [reflexivity|].
  symmetry. apply forallb_forall. intros c Hc.
  rewrite Forall_forall in Hl. apply list_elem_of_In, Hl in Hc.
  unfold is_octet in Hc. apply Z.leb_le. lia.
Qed.

Lemma toBase64_encode (B : list byte) :
  toBase64 B = inr (base64_encode (map code_of_byte B)).
Proof.
  unfold toBase64.
  rewrite (map_ext _ code_of_byte) by apply fromCharCode_byte.
  apply btoa_octets, octets_of_bytes.
Qed.

Lemma fromBase64_encode (B : list byte) :
  fromBase64 (base64_encode (map code_of_byte B)) = inr B.
Proof.
  unfold fromBase64, atob.
  rewrite decode_encode by apply octets_of_bytes.
  now rewrite ToUint8_codes.
Qed.

(** The loop of [toBase64Url] stops at the end of the body. *)
Lemma strip_end_body body pad k :
  Forall (fun c => c <> 61) body -> Forall (fun c => c = 61) pad ->
  (k <= length pad)%nat ->
  strip_end (body ++ pad) (length body + k) = length body.
Proof.
  intros Hb Hp. induction k as [|k IH]; intros Hk.
  - rewrite Nat.add_0_r. destruct (length body) as [|e] eqn:E; [reflexivity|].
    cbn [strip_end]. unfold charCodeAt.
    rewrite lookup_app_l by lia.
    destruct (body !! e) as [c|] eqn:Ec; [|reflexivity].
    apply (Forall_lookup_1 _ _ _ _ Hb) in Ec.
    destruct (Z.eqb_spec c 61); [contradiction|reflexivity].
  - rewrite Nat.add_succ_r. cbn [strip_end]. unfold charCodeAt.
    rewrite lookup_app_r by lia.
    replace (length body + k - length body)%nat with k by lia.
    destruct (pad !! k) as [c|] eqn:Ec.
    + apply (Forall_lookup_1 _ _ _ _ Hp) in Ec. subst c.
      rewrite Z.eqb_refl. apply IH. lia.
    + apply lookup_ge_None in Ec. lia.
Qed.

Lemma padding_all_eq n : Forall (fun c => c = 61) (padding n).
Proof.
  destruct (padding_cases n) as [[_ ->]|[[_ ->]|[_ ->]]]; repeat constructor.
Qed.

Lemma toBase64Url_encode (B : list byte) :
  toBase64Url B = inr (map url_char (map b64_char (sextets (map code_of_byte B)))).
Proof.
  unfold toBase64Url. rewrite toBase64_encode. unfold base64_encode.
  set (body := map b64_char (sextets (map code_of_byte B))).
  set (pad := padding _).
  assert (Forall (fun c => c <> 61) body) as Hb.
  { apply alphabet_not_eq, alphabet_map_char, sextets_range, octets_of_bytes. }
  cbv zeta. rewrite length_app.
  rewrite (strip_end_body body pad (length pad) Hb (padding_all_eq _))
    by reflexivity.
  now rewrite take_app_length.
Qed.

(** The two replacements of [fromBase64Url] undo the translation of
    [toBase64Url] on text over the standard alphabet. *)
Lemma replace_url_char s :
  Forall in_alphabet s ->
  replace_all 95 47 (replace_all 45 43 (map url_char s)) = s.
Proof.
  induction 1 as [|c s [v Hc] _ IH]; [reflexivity|].
  unfold replace_all in *. cbn [map]. rewrite IH. f_equal.
  apply b64_value_Some in Hc. destruct Hc as (_ & _ & _ & _ & H45 & H95).
  unfold url_char.
  destruct (Z.eqb_spec c 43) as [->|]; [reflexivity|].
  destruct (Z.eqb_spec c 47) as [->|]; [reflexivity|].
  destruct (Z.eqb_spec c 45); [contradiction|].
  destruct (Z.eqb_spec c 95); [contradiction|reflexivity].
Qed.

(** ['==='.slice((n + 3) % 4)] is the padding of the encoding whose
    unpadded length is [n]. *)
Lemma rederived_padding l :
  drop ((length (sextets l) + 3) mod 4)%nat (js "===") = padding (length l).
Proof.
  pose proof (length_sextets l) as Hm.
  change (js "===") with [61; 61; 61].
  destruct (padding_cases (length l)) as [[E ->]|[[E ->]|[E ->]]];
    rewrite E in Hm.
  - replace ((length (sextets l) + 3) mod 4)%nat with 3%nat by lia. reflexivity.
  - replace ((length (sextets l) + 3) mod 4)%nat with 1%nat by lia. reflexivity.
  - replace ((length (sextets l) + 3) mod 4)%nat with 2%nat by lia. reflexivity.
Qed.

Lemma fromBase64Url_padded (B : list byte) :
  let u := map url_char (map b64_char (sextets (map code_of_byte B))) in
  replace_all 95 47 (replace_all 45 43 u)
    ++ drop ((length u + 3) mod 4)%nat (js "===")
  = base64_encode (map code_of_byte B).
Proof.
  cbv zeta. rewrite replace_url_char
    by apply alphabet_map_char, sextets_range, octets_of_bytes.
  rewrite !length_map, rederived_padding. reflexivity.
Qed.

(** C6. For every byte sequence [B], the empty one included,
    [fromBase64(toBase64(B))] is [B] and [fromBase64Url(toBase64Url(B))] is
    [B]; the text that [fromBase64Url] hands to [fromBase64], after it has
    appended the padding derived from the length modulo 4, is exactly the
    standard Base64 encoding of [B]. *)
Theorem base64_round_trip (B : list byte) :
  (exists s, toBase64 B = inr s /\ fromBase64 s = inr B) /\
  (exists u b64,
     toBase64Url B = inr u /\ toBase64 B = inr b64 /\
     replace_all 95 47 (replace_all 45 43 u)
       ++ drop ((length u + 3) mod 4)%nat (js "===") = b64 /\
     fromBase64Url u = inr B).
Proof.
  split.
  - eexists. split; [apply toBase64_encode | apply fromBase64_encode].
  - do 2 eexists. split; [apply toBase64Url_encode|].
    split; [apply toBase64_encode|].
    split; [apply fromBase64Url_padded|].
    unfold fromBase64Url. rewrite fromBase64Url_padded.
    apply fromBase64_encode.
Qed.

(** C8. [toBase64] of [1] is "AQ==", of [1,2] is "AQI=", of [1,2,3] is
    "AQID": the RFC 4648 encodings, '=' padding included. *)
Theorem toBase64_padding_literals :
  toBase64 [x01] = inr (js "AQ==") /\
  toBase64 [x01; x02] = inr (js "AQI=") /\
  toBase64 [x01; x02; x03] = inr (js "AQID").
Proof. repeat split; reflexivity. Qed.

(** The malformed texts of the test suite are rejected, and the empty
    byte sequence makes the round trip. *)
Example fromBase64_percent : fromBase64 (js "%%%") = inl InvalidEncoding.
Proof. reflexivity. Qed.

Example fromBase64Url_hash : fromBase64Url (js "###") = inl InvalidEncoding.
Proof. reflexivity. Qed.

Example toBase64_empty : toBase64 [] = inr [] /\ fromBase64 [] = inr [].
Proof. split; reflexivity. Qed.

Example toBase64Url_strips :
  toBase64Url [xff; xee; xdd; xfb] = inr (js "_-7d-w").
Proof. reflexivity. Qed.

(** *** Which texts [fromBase64] accepts *)

Lemma is_alphabet_value c : is_alphabet c <-> in_alphabet c.
Proof.
  unfold is_alphabet, in_alphabet. split.
  - intros H. assert (exists v, b64_value c = Some v) as [v Hv].
    { destruct H as [H|[H|[H|[H|H]]]]; eexists; apply b64_value_spec.
      - left. eauto.
      - right. left. eauto.
      - right. right. left. eauto.
      - do 3 right. left. eauto.
      - do 4 right. eauto. }
    rewrite Hv. eauto.
  - intros [v Hv]. apply b64_value_spec in Hv. lia.
Qed.

Lemma drop_trailing_eq_cases s :
  drop_trailing_eq s = s \/ s = drop_trailing_eq s ++ [61].
Proof.
  unfold drop_trailing_eq. destruct (rev s) as [|c r] eqn:E; [now left|].
  destruct (Z.eqb_spec c 61) as [->|]; [right|now left].
  rewrite <- (rev_involutive s), E. reflexivity.
Qed.

Lemma well_formed_decodes s :
  well_formed_base64 s -> exists bs, forgiving_base64_decode s = Some bs.
Proof.
  intros (body & pad & Hf & Hbody & Hpad).
  assert (is_Some (mapM b64_value body)) as [vs Hvs].
  { apply mapM_is_Some_2. eapply Forall_impl; [exact Hbody|].
    intros c Hc. now apply is_alphabet_value. }
  exists (octets vs).
  assert (forgiving_base64_decode (body ++ pad) = Some (octets vs)) as Hd.
  { apply decode_body_pad; [assumption|].
    rewrite length_app in Hpad.
    destruct Hpad as [[-> Hl]|[[->| ->] Hl]]; cbn [length] in Hl.
    - left. auto.
    - right. left. split; [reflexivity|lia].
    - right. right. split; [reflexivity|lia]. }
  unfold forgiving_base64_decode in *. cbv zeta in *.
  rewrite Hf.
  rewrite (filter_all (fun c => is_ascii_whitespace c = false)) in Hd;
    [exact Hd|].
  rewrite <- Hf. apply Forall_forall. intros c Hc.
  apply list_elem_of_filter in Hc. tauto.
Qed.

Lemma strip_padding_shape d :
  strip_padding d = d \/
  ((d = strip_padding d ++ [61] \/ d = strip_padding d ++ [61; 61]) /\
   (length d mod 4)%nat = 0%nat).
Proof.
  unfold strip_padding.
  destruct (Nat.eqb_spec (length d mod 4) 0) as [H0|H0]; [|now left].
  destruct (drop_trailing_eq_cases d) as [E|E].
  - rewrite E. destruct (drop_trailing_eq_cases d) as [E'|E']; [now left|].
    right. rewrite E in E'. rewrite E. auto.
  - destruct (drop_trailing_eq_cases (drop_trailing_eq d)) as [E1|E1].
    + right. rewrite E1. auto.
    + right. split; [right|exact H0].
      rewrite E at 1. rewrite E1 at 1. now rewrite <- app_assoc.
Qed.

Lemma decodes_well_formed s bs :
  forgiving_base64_decode s = Some bs -> well_formed_base64 s.
Proof.
  unfold forgiving_base64_decode, well_formed_base64. cbv zeta.
  generalize (filter (fun c => is_ascii_whitespace c = false) s). intros d.
  destruct (Nat.eqb_spec (length (strip_padding d) mod 4) 1) as [|Hl];
    [discriminate|].
  destruct (mapM b64_value (strip_padding d)) as [vs|] eqn:Hvs;
    [intros _|discriminate].
  assert (Forall is_alphabet (strip_padding d)) as Hbody.
  { assert (is_Some (mapM b64_value (strip_padding d))) as Hs by eauto.
    apply mapM_is_Some_1 in Hs. eapply Forall_impl; [exact Hs|].
    intros c Hc. now apply is_alphabet_value. }
  exists (strip_padding d).
  destruct (strip_padding_shape d) as [E|[[E|E] H0]].
  - exists []. rewrite app_nil_r. auto.
  - exists [61]. rewrite <- E. auto 6.
  - exists [61; 61]. rewrite <- E. auto 6.
Qed.

(** C7, counterexample.  It is not so that every text with a character
    outside A-Z a-z 0-9 + / = is rejected: "AQ ID" has a space in it and
    is decoded to the bytes 1, 2, 3. *)
Lemma fromBase64_accepts_whitespace :
  ~ (forall s : jsstring,
       Exists (fun c => ~ is_alphabet c /\ c <> 61) s ->
       fromBase64 s = inl InvalidEncoding).
Proof.
  intros H. specialize (H (js "AQ ID")).
  assert (fromBase64 (js "AQ ID") = inr [x01; x02; x03]) as E by reflexivity.
  rewrite H in E; [discriminate|].
  change (js "AQ ID") with [65; 81; 32; 73; 68].
  do 2 apply Exists_cons_tl. apply Exists_cons_hd.
  unfold is_alphabet. lia.
Qed.

(** Induction over a list four elements at a time, as the decoder reads
    it. *)
Lemma list_ind4 {A} (P : list A -> Prop) :
  P [] -> (forall a, P [a]) -> (forall a b, P [a; b]) ->
  (forall a b c, P [a; b; c]) ->
  (forall a b c d l, P l -> P (a :: b :: c :: d :: l)) ->
  forall l, P l.
Proof.
  intros H0 H1 H2 H3 H4.
  fix IH 1. intros [|a [|b [|c [|d l]]]].
  - exact H0.
  - apply H1.
  - apply H2.
  - apply H3.
  - apply H4, IH.
Qed.

(** The decoder gives 3 bytes for every 4 characters, 2 for a final group
    of three and 1 for a final group of two. *)
Lemma length_octets vs : length (octets vs) = (length vs * 3 / 4)%nat.
Proof.
  induction vs as [|a|a b|a b c|a b c d vs IH] using list_ind4;
    try reflexivity.
  cbn [octets length]. rewrite IH. lia.
Qed.

(** Every byte the decoder gives is a byte value: nothing is lost in the
    stores [bytes[i] = binary.charCodeAt(i)]. *)
Lemma octets_range vs : Forall is_sextet vs -> Forall is_octet (octets vs).
Proof.
  induction vs as [|a|a b|a b c|a b c d vs IH] using list_ind4; intros H;
    cbn [octets]; unfold is_sextet, is_octet in *.
  - constructor.
  - constructor.
  - inversion_clear H as [|? ? Ha H']. inversion_clear H' as [|? ? Hb _].
    repeat constructor; lia.
  - inversion_clear H as [|? ? Ha H']. inversion_clear H' as [|? ? Hb H''].
    inversion_clear H'' as [|? ? Hc _].
    repeat constructor; lia.
  - inversion_clear H as [|? ? Ha H']. inversion_clear H' as [|? ? Hb H''].
    inversion_clear H'' as [|? ? Hc H3]. inversion_clear H3 as [|? ? Hd Hvs].
    repeat (constructor; [lia|]). now apply IH.
Qed.

Lemma mapM_value_sextets body vs :
  mapM b64_value body = Some vs ->
  Forall is_sextet vs /\ length vs = length body.
Proof.
  intros H. apply mapM_Some in H. split.
  - induction H as [|c v body vs Hv _ IH]; constructor; [|exact IH].
    apply b64_value_spec in Hv. unfold is_sextet. lia.
  - symmetry. eapply Forall2_length, H.
Qed.

Lemma codes_ToUint8 l :
  Forall is_octet l -> map code_of_byte (map ToUint8 l) = l.
Proof.
  induction 1 as [|z l Hz _ IH]; [reflexivity|].
  cbn [map]. rewrite IH. f_equal.
  unfold ToUint8, is_octet in *. rewrite Z.mod_small by lia.
  destruct (Byte.of_N (Z.to_N z)) as [b|] eqn:E.
  - apply Byte.to_of_N in E. unfold code_of_byte. rewrite E. lia.
  - apply Byte.of_N_None_iff in E. lia.
Qed.

(** What the platform decoder makes of a well-formed text: the values of
    the characters of the body, regrouped into bytes. *)
Lemma well_formed_decodes_to s body pad vs :
  filter (fun c => is_ascii_whitespace c = false) s = body ++ pad ->
  mapM b64_value body = Some vs ->
  (pad = [] /\ (length body mod 4)%nat <> 1%nat) \/
  ((pad = [61] \/ pad = [61; 61]) /\ (length (body ++ pad) mod 4)%nat = 0%nat) ->
  forgiving_base64_decode s = Some (octets vs).
Proof.
  intros Hf Hvs Hpad.
  assert (forgiving_base64_decode (body ++ pad) = Some (octets vs)) as Hd.
  { apply decode_body_pad; [assumption|].
    rewrite length_app in Hpad.
    destruct Hpad as [[-> Hl]|[[->| ->] Hl]]; cbn [length] in Hl.
    - left. auto.
    - right. left. split; [reflexivity|lia].
    - right. right. split; [reflexivity|lia]. }
  unfold forgiving_base64_decode in *. cbv zeta in *.
  rewrite Hf.
  rewrite (filter_all (fun c => is_ascii_whitespace c = false)) in Hd;
    [exact Hd|].
  rewrite <- Hf. apply Forall_forall. intros c Hc.
  apply list_elem_of_filter in Hc. tauto.
Qed.

(** C7, as amended.  [fromBase64] ignores ASCII whitespace (tab, line
    feed, form feed, carriage return, space).  It fails with
    InvalidEncoding exactly when what remains is not well formed: a
    character outside A-Z a-z 0-9 + / other than one or two final '=' that
    bring the length to a multiple of 4, or, without padding, a length of 1
    modulo 4.  On every well-formed text it returns the decoded bytes: the
    6-bit values of the characters of the body, regrouped into bytes
    (three bytes for four characters, two for a final group of three, one
    for a final group of two), so [floor (3 n / 4)] bytes for a body of
    [n] characters. *)
Theorem fromBase64_fails_iff_malformed (s : jsstring) :
  (fromBase64 s = inl InvalidEncoding <-> ~ well_formed_base64 s) /\
  (forall body pad,
     filter (fun c => is_ascii_whitespace c = false) s = body ++ pad ->
     Forall is_alphabet body ->
     (pad = [] /\ (length body mod 4)%nat <> 1%nat) \/
     ((pad = [61] \/ pad = [61; 61]) /\
      (length (body ++ pad) mod 4)%nat = 0%nat) ->
     exists vs bytes,
       mapM b64_value body = Some vs /\
       fromBase64 s = inr bytes /\
       map code_of_byte bytes = octets vs /\
       length bytes = (length body * 3 / 4)%nat).
Proof.
  assert (forall body pad,
     filter (fun c => is_ascii_whitespace c = false) s = body ++ pad ->
     Forall is_alphabet body ->
     (pad = [] /\ (length body mod 4)%nat <> 1%nat) \/
     ((pad = [61] \/ pad = [61; 61]) /\
      (length (body ++ pad) mod 4)%nat = 0%nat) ->
     exists vs bytes,
       mapM b64_value body = Some vs /\
       fromBase64 s = inr bytes /\
       map code_of_byte bytes = octets vs /\
       length bytes = (length body * 3 / 4)%nat) as Hok.
  { intros body pad Hf Hbody Hpad.
    assert (is_Some (mapM b64_value body)) as [vs Hvs].
    { apply mapM_is_Some_2. eapply Forall_impl; [exact Hbody|].
      intros c Hc. now apply is_alphabet_value. }
    destruct (mapM_value_sextets _ _ Hvs) as [Hsx Hlen].
    exists vs, (map ToUint8 (octets vs)). split; [exact Hvs|].
    split; [|split].
    - unfold fromBase64, atob.
      now rewrite (well_formed_decodes_to s body pad vs Hf Hvs Hpad).
    - apply codes_ToUint8, octets_range, Hsx.
    - now rewrite length_map, length_octets, Hlen. }
  split; [|exact Hok]. split.
  - intros Hfail (body & pad & Hf & Hbody & Hpad).
    destruct (Hok body pad Hf Hbody Hpad) as (vs & bytes & _ & Hb & _).
    congruence.
  - intros Hwf. unfold fromBase64, atob.
    destruct (forgiving_base64_decode s) as [bs|] eqn:E; [|reflexivity].
    exfalso. eauto using decodes_well_formed.
Qed.

Lemma fromBase64_fails_iff_malformed_witness :
  exists bytes,
    fromBase64 (js "AQ ID") = inr bytes /\
    map code_of_byte bytes = [1; 2; 3] /\
    length bytes = 3%nat.
Proof.
  destruct (proj2 (fromBase64_fails_iff_malformed (js "AQ ID"))
              [65; 81; 73; 68] [])
    as (vs & bytes & Hvs & Hb & Hc & Hl).
  - reflexivity.
  - unfold is_alphabet. repeat (constructor; [lia|]). constructor.
  - left. split; [reflexivity|cbn; lia].
  - exists bytes. split; [exact Hb|]. split; [|exact Hl].
    rewrite Hc. injection Hvs as <-. reflexivity.
Defined.

(** ** Facts about the heap *)

Lemma buffer_bytes_alloc (h : list (list byte)) bs :
  buffer_bytes (h ++ [bs]) (length h) = bs.
Proof.
  unfold buffer_bytes. rewrite lookup_app_r by lia.
  now rewrite Nat.sub_diag.
Qed.

Lemma buffer_bytes_old (h : list (list byte)) bs l :
  (l < length h)%nat -> buffer_bytes (h ++ [bs]) l = buffer_bytes h l.
Proof.
  intros Hl. unfold buffer_bytes. now rewrite lookup_app_l by lia.
Qed.

Lemma view_bytes_old h bs v :
  live h v -> view_bytes (h ++ [bs]) v = view_bytes h v.
Proof.
  intros Hv. unfold view_bytes. now rewrite buffer_bytes_old.
Qed.


Lemma length_view_bytes h v :
  view_ok h v -> length (view_bytes h v) = byteLength v.
Proof.
  unfold view_ok, view_bytes. intros Hv.
  rewrite length_take, length_drop. lia.
Qed.

(** ** What [encrypt], [decrypt] and [importKey] compute *)

Section Wrapper.
Context `{host : Host}.

Lemma encrypt_with_iv key pt iv aad t w :
  encrypt key pt {| opts_iv := Some iv; opts_aad := aad; opts_tagLength := t |} w =
  if (byteLength iv =? 12)%nat then
    let alg := algorithm_of (heap w) iv aad t in
    let data := view_bytes (heap w) pt in
    let w1 := logged (SubtleEncrypt alg key data) w in
    match subtle_encrypt alg key data with
    | inl rej => (inl (exn_of_rejection rej), w1)
    | inr ct =>
        (inr {| res_iv := iv;
                res_ciphertext := whole (length (heap w)) (length ct) |},
         allocated ct w1)
    end
  else (inl InvalidIvLength, w).
Proof.
  unfold encrypt. cbn [opts_iv opts_aad opts_tagLength].
  unfold mbind, M_bind at 1. unfold mret, M_ret at 1.
  change DEFAULT_IV_BYTES with 12%nat.
  destruct (byteLength iv =? 12)%nat; [|reflexivity].
  cbn [negb]. unfold M_bind at 1. unfold crypto_subtle_encrypt.
  unfold mbind, M_bind, log, await, alloc, throw, mret, M_ret,
    Uint8Array_of_buffer.
  cbn [heap entropy calls].
  fold (algorithm_of (heap w) iv aad t).
  destruct (subtle_encrypt _ key _) as [rej|ct]; [reflexivity|].
  cbn [heap entropy calls]. rewrite buffer_bytes_alloc. reflexivity.
Qed.

Lemma decrypt_computes key iv ct oiv aad t w :
  decrypt key iv ct {| opts_iv := oiv; opts_aad := aad; opts_tagLength := t |} w =
  if (byteLength iv =? 12)%nat then
    let alg := algorithm_of (heap w) iv aad t in
    let data := view_bytes (heap w) ct in
    let w1 := logged (SubtleDecrypt alg key data) w in
    match subtle_decrypt alg key data with
    | inl rej => (inl (exn_of_rejection rej), w1)
    | inr pt => (inr (whole (length (heap w)) (length pt)), allocated pt w1)
    end
  else (inl InvalidIvLength, w).
Proof.
  unfold decrypt. cbn [opts_iv opts_aad opts_tagLength].
  change DEFAULT_IV_BYTES with 12%nat.
  destruct (byteLength iv =? 12)%nat; [|reflexivity].
  cbn [negb]. unfold crypto_subtle_decrypt.
  unfold mbind, M_bind, log, await, alloc, throw, mret, M_ret,
    Uint8Array_of_buffer.
  cbn [heap entropy calls].
  fold (algorithm_of (heap w) iv aad t).
  destruct (subtle_decrypt _ key _) as [rej|pt]; [reflexivity|].
  cbn [heap entropy calls]. rewrite buffer_bytes_alloc. reflexivity.
Qed.

Lemma importKey_computes rawKey w :
  importKey rawKey w =
  if (byteLength rawKey =? 32)%nat then
    let kd := view_bytes (heap w) rawKey in
    let w1 := logged (SubtleImportKey "raw" kd "AES-GCM" true
                        ["encrypt"; "decrypt"]%string) (allocated kd w) in
    match import_raw kd with
    | inl rej => (inl (exn_of_rejection rej), w1)
    | inr key => (inr key, w1)
    end
  else (inl InvalidKeyLength, w).
Proof.
  unfold importKey.
  destruct (byteLength rawKey =? 32)%nat; [|reflexivity].
  cbn [negb]. unfold slice, crypto_subtle_importKey.
  unfold mbind, M_bind, log, await, alloc, throw, mret, M_ret.
  cbn [heap entropy calls].
  assert (view_bytes (heap w ++ [view_bytes (heap w) rawKey])
            {| buffer := length (heap w); byteOffset := 0;
               byteLength := byteLength rawKey |}
          = view_bytes (heap w) rawKey) as ->.
  { unfold view_bytes at 1. cbn [buffer byteOffset byteLength drop].
    rewrite buffer_bytes_alloc. unfold view_bytes. apply take_idemp. }
  unfold import_raw. destruct (subtle_importKey _ _ _ _ _); reflexivity.
Qed.

Lemma length_random_bytes n e : length (fst (random_bytes n e)) = n.
Proof.
  revert e. induction n as [|n IH]; intros e; [reflexivity|].
  cbn [random_bytes]. destruct (random_byte e) as [b e1].
  specialize (IH e1). destruct (random_bytes n e1) as [bs e2].
  cbn [fst length] in *. now rewrite IH.
Qed.


Lemma randomIv_computes w :
  randomIv w = (inr (whole (length (heap w)) 12), after_randomIv w).
Proof.
  unfold randomIv, new_Uint8Array, getRandomValues, after_randomIv.
  unfold mbind, M_bind, alloc, mret, M_ret.
  change DEFAULT_IV_BYTES with 12%nat.
  cbn [heap entropy calls byteLength byteOffset buffer].
  pose proof (length_random_bytes 12 (entropy w)) as Hlen.
  destruct (random_bytes 12 (entropy w)) as [bs e']. cbn [fst snd] in *.
  unfold whole. do 2 f_equal.
  rewrite alter_app_r_alt by reflexivity. rewrite Nat.sub_diag.
  cbn [alter list_alter take app].
  rewrite drop_replicate. cbn [replicate Nat.sub Nat.add].
  now rewrite app_nil_r.
Qed.

Lemma view_bytes_randomIv w :
  view_bytes (heap (after_randomIv w)) (whole (length (heap w)) 12)
  = fst (random_bytes 12 (entropy w)).
Proof.
  unfold view_bytes, whole, after_randomIv.
  cbn [heap buffer byteOffset byteLength drop].
  rewrite buffer_bytes_alloc. apply take_ge.
  now rewrite length_random_bytes.
Qed.

Lemma encrypt_without_iv key pt aad t w :
  encrypt key pt {| opts_iv := None; opts_aad := aad; opts_tagLength := t |} w =
  encrypt key pt {| opts_iv := Some (whole (length (heap w)) 12);
                    opts_aad := aad; opts_tagLength := t |}
    (after_randomIv w).
Proof.
  unfold encrypt. cbn [opts_iv opts_aad opts_tagLength].
  unfold mbind at 1 3. unfold M_bind at 1 3.
  rewrite randomIv_computes. reflexivity.
Qed.

End Wrapper.

(** ** The model host meets the contract *)

Lemma bytes_eqb_refl l : ModelHost.bytes_eqb l l = true.
Proof.
  induction l as [|b l IH]; [reflexivity|].
  cbn [ModelHost.bytes_eqb]. rewrite IH, andb_true_r.
  now apply Byte.byte_dec_lb.
Qed.

Lemma model_host_laws : HostLaws ModelHost.model_host.
Proof.
  split.
  - intros raw Hraw. exists raw.
    unfold import_raw. cbn. unfold ModelHost.model_importKey.
    rewrite Hraw. reflexivity.
  - intros key alg pt ct _. cbn.
    unfold ModelHost.model_encrypt, ModelHost.model_decrypt.
    destruct (ModelHost.supported alg); [|discriminate].
    intros [= <-]. cbv zeta.
    assert (length (ModelHost.tag alg key pt)
            = Z.to_nat (alg_tagLength alg / 8)) as Hn
      by apply length_replicate.
    rewrite length_app, Hn.
    replace (length pt + Z.to_nat (alg_tagLength alg / 8)
             - Z.to_nat (alg_tagLength alg / 8))%nat
      with (length pt) by lia.
    rewrite take_app_length, drop_app_length, bytes_eqb_refl.
    replace (_ <=? _)%nat with true; [reflexivity|].
    symmetry. apply Nat.leb_le. lia.
  - intros key alg pt _ Hname Hiv Ht. cbn.
    unfold ModelHost.model_encrypt, ModelHost.supported.
    rewrite Hname, Hiv.
    destruct Ht as [->|[->|[->|[->| ->]]]]; eexists; reflexivity.
Qed.

(** ** Properties of [src/aes-gcm.ts] *)

Section Claims.
Context `{host : Host}.

Lemma rejection_not_Error rej m : exn_of_rejection rej <> Error m.
Proof. destruct rej; discriminate. Qed.

Lemma importKey_admits rawKey w key w' :
  importKey rawKey w = (inr key, w') -> admitted key.
Proof.
  rewrite importKey_computes.
  destruct (byteLength rawKey =? 32)%nat; [|discriminate].
  cbv zeta. destruct (import_raw _) as [rej|k] eqn:E; [discriminate|].
  intros [= <- _]. eexists. exact E.
Qed.

(** C5. [importKey] fails with InvalidKeyLength exactly when the key is
    not 32 bytes long; on that path the world is unchanged (no allocation,
    no call to the provider); a 32-byte key is imported, through one raw
    import of a copy of its bytes. *)
Theorem importKey_checks_length (laws : HostLaws host)
    (rawKey : Uint8Array) (w : world) :
  ((exists w', importKey rawKey w = (inl InvalidKeyLength, w'))
   <-> byteLength rawKey <> 32%nat) /\
  (byteLength rawKey <> 32%nat ->
   importKey rawKey w = (inl InvalidKeyLength, w)) /\
  (byteLength rawKey = 32%nat -> view_ok (heap w) rawKey ->
   exists key w',
     importKey rawKey w = (inr key, w') /\ admitted key /\
     calls w' = calls w ++
       [SubtleImportKey "raw" (view_bytes (heap w) rawKey) "AES-GCM" true
          ["encrypt"; "decrypt"]%string]).
Proof.
  rewrite importKey_computes.
  destruct (Nat.eqb_spec (byteLength rawKey) 32) as [E|E]; cbv zeta.
  - split; [|split]; [|congruence|].
    + split; [|congruence]. intros [w' Hw'].
      destruct (import_raw _) as [rej|k]; [|discriminate].
      injection Hw' as Hrej _. now apply rejection_not_Error in Hrej.
    + intros _ Hok.
      destruct (import_raw_256 (view_bytes (heap w) rawKey)) as [key Hkey].
      { rewrite length_view_bytes by assumption. exact E. }
      rewrite Hkey. do 2 eexists. split; [reflexivity|].
      split; [eexists; exact Hkey | reflexivity].
  - split; [|split]; [|reflexivity|congruence].
    split; [auto | eauto].
Qed.

Lemma encrypt_computes key pt opts w :
  encrypt key pt opts w =
  let (iv, w0) := chosen_iv opts w in
  if (byteLength iv =? 12)%nat then
    let alg := algorithm_of (heap w0) iv (opts_aad opts) (opts_tagLength opts) in
    let data := view_bytes (heap w0) pt in
    let w1 := logged (SubtleEncrypt alg key data) w0 in
    match subtle_encrypt alg key data with
    | inl rej => (inl (exn_of_rejection rej), w1)
    | inr ct =>
        (inr {| res_iv := iv;
                res_ciphertext := whole (length (heap w0)) (length ct) |},
         allocated ct w1)
    end
  else (inl InvalidIvLength, w0).
Proof.
  destruct opts as [[iv|] aad t]; unfold chosen_iv; cbn [opts_iv opts_aad opts_tagLength].
  - apply encrypt_with_iv.
  - rewrite encrypt_without_iv. apply encrypt_with_iv.
Qed.

(** C3. With an explicit iv, [encrypt] fails with InvalidIvLength exactly
    when the iv is not 12 bytes long, and so does [decrypt].  Without an
    iv, [encrypt] asks the provider for 12 random bytes, never fails with
    InvalidIvLength, and the [iv] of its result is a new 12-byte array
    holding the bytes the provider gave. *)
Theorem iv_length_checked (key : CryptoKey) (pt ct iv : Uint8Array)
    (oiv aad : option Uint8Array) (t : option Z) (w : world) :
  ((exists w', encrypt key pt {| opts_iv := Some iv; opts_aad := aad;
                                 opts_tagLength := t |} w
               = (inl InvalidIvLength, w'))
   <-> byteLength iv <> 12%nat) /\
  ((exists w', decrypt key iv ct {| opts_iv := oiv; opts_aad := aad;
                                    opts_tagLength := t |} w
               = (inl InvalidIvLength, w'))
   <-> byteLength iv <> 12%nat) /\
  (let r := encrypt key pt {| opts_iv := None; opts_aad := aad;
                              opts_tagLength := t |} w in
   let nonce := fst (random_bytes 12 (entropy w)) in
   fst r <> inl InvalidIvLength /\
   (exists rest, calls (snd r) = calls w ++ GetRandomValues 12 :: rest) /\
   (forall res, fst r = inr res ->
      byteLength (res_iv res) = 12%nat /\
      length nonce = 12%nat /\
      ~ live (heap w) (res_iv res) /\
      view_bytes (heap (snd r)) (res_iv res) = nonce)).
Proof.
  split; [|split].
  - rewrite encrypt_with_iv.
    destruct (Nat.eqb_spec (byteLength iv) 12) as [E|E]; cbv zeta.
    + split; [|congruence]. intros [w' Hw'].
      destruct (subtle_encrypt _ _ _) as [rej|c]; [|discriminate].
      injection Hw' as Hrej _. now apply rejection_not_Error in Hrej.
    + split; [auto | eauto].
  - rewrite decrypt_computes.
    destruct (Nat.eqb_spec (byteLength iv) 12) as [E|E]; cbv zeta.
    + split; [|congruence]. intros [w' Hw'].
      destruct (subtle_decrypt _ _ _) as [rej|c]; [|discriminate].
      injection Hw' as Hrej _. now apply rejection_not_Error in Hrej.
    + split; [auto | eauto].
  - cbv zeta. rewrite encrypt_without_iv, encrypt_with_iv.
    cbn [whole byteLength Nat.eqb]. cbv zeta.
    destruct (subtle_encrypt _ _ _) as [rej|c]; cbn [fst snd].
    + split; [apply not_eq_sym; intros Hrej; injection Hrej as Hrej;
              symmetry in Hrej; now apply rejection_not_Error in Hrej|].
      split; [|discriminate].
      eexists. cbn [logged after_randomIv calls]. rewrite <- app_assoc.
      reflexivity.
    + split; [discriminate|]. split.
      * eexists. cbn [allocated logged after_randomIv calls].
        rewrite <- app_assoc. reflexivity.
      * intros res [= <-]. cbn [res_iv byteLength].
        split; [reflexivity|]. split; [apply length_random_bytes|].
        split; [unfold live, whole; cbn [buffer]; lia|].
        cbn [allocated logged heap].
        rewrite view_bytes_old.
        -- apply view_bytes_randomIv.
        -- unfold live. cbn [after_randomIv heap buffer whole].
           rewrite length_app. cbn [length]. lia.
Qed.

(** The same for [decrypt], for any options. *)
Lemma decrypt_computes' key iv ct opts w :
  decrypt key iv ct opts w =
  if (byteLength iv =? 12)%nat then
    let alg := algorithm_of (heap w) iv (opts_aad opts) (opts_tagLength opts) in
    let data := view_bytes (heap w) ct in
    let w1 := logged (SubtleDecrypt alg key data) w in
    match subtle_decrypt alg key data with
    | inl rej => (inl (exn_of_rejection rej), w1)
    | inr pt => (inr (whole (length (heap w)) (length pt)), allocated pt w1)
    end
  else (inl InvalidIvLength, w).
Proof. destruct opts. apply decrypt_computes. Qed.

(** C4. Whatever [tagLength] is, legal or not, [encrypt] and [decrypt]
    do not look at it: either the iv is not 12 bytes long and the call
    fails with InvalidIvLength, or the provider is called once, with
    [tagLength] (128 when absent) in the parameters as it was given, and a
    failure is the provider's rejection, rethrown.  The only error the
    two functions throw themselves is InvalidIvLength. *)
Theorem tagLength_forwarded_verbatim (key : CryptoKey) (pt ct iv : Uint8Array)
    (opts : AesGcmOptions) (w : world) :
  let tagLength := match opts_tagLength opts with Some v => v | None => 128 end in
  (let iv0 := fst (chosen_iv opts w) in
   let w0 := snd (chosen_iv opts w) in
   let r := encrypt key pt opts w in
   (byteLength iv0 <> 12%nat /\ r = (inl InvalidIvLength, w0)) \/
   (byteLength iv0 = 12%nat /\
    exists alg data,
      alg_tagLength alg = tagLength /\
      calls (snd r) = calls w0 ++ [SubtleEncrypt alg key data] /\
      fst r = match subtle_encrypt alg key data with
              | inl rej => inl (exn_of_rejection rej)
              | inr c =>
                  inr {| res_iv := iv0;
                         res_ciphertext := whole (length (heap w0)) (length c) |}
              end)) /\
  (let r := decrypt key iv ct opts w in
   (byteLength iv <> 12%nat /\ r = (inl InvalidIvLength, w)) \/
   (byteLength iv = 12%nat /\
    exists alg data,
      alg_tagLength alg = tagLength /\
      calls (snd r) = calls w ++ [SubtleDecrypt alg key data] /\
      fst r = match subtle_decrypt alg key data with
              | inl rej => inl (exn_of_rejection rej)
              | inr p => inr (whole (length (heap w)) (length p))
              end)) /\
  (forall m,
     fst (encrypt key pt opts w) = inl (Error m) \/
     fst (decrypt key iv ct opts w) = inl (Error m) ->
     Error m = InvalidIvLength).
Proof.
  cbv zeta. rewrite encrypt_computes, decrypt_computes'.
  destruct (chosen_iv opts w) as [iv0 w0]. cbn [fst snd].
  split; [|split].
  - destruct (Nat.eqb_spec (byteLength iv0) 12) as [E|E]; [right|left; auto].
    split; [exact E|]. cbv zeta.
    exists (algorithm_of (heap w0) iv0 (opts_aad opts) (opts_tagLength opts)),
      (view_bytes (heap w0) pt).
    split; [reflexivity|].
    destruct (subtle_encrypt _ _ _) as [rej|c]; cbn [fst snd]; auto.
  - destruct (Nat.eqb_spec (byteLength iv) 12) as [E|E]; [right|left; auto].
    split; [exact E|]. cbv zeta.
    exists (algorithm_of (heap w) iv (opts_aad opts) (opts_tagLength opts)),
      (view_bytes (heap w) ct).
    split; [reflexivity|].
    destruct (subtle_decrypt _ _ _) as [rej|c]; cbn [fst snd]; auto.
  - intros m [H|H].
    + destruct (byteLength iv0 =? 12)%nat; cbv zeta in H.
      * destruct (subtle_encrypt _ _ _) as [rej|c]; cbn [fst] in H;
          [|discriminate].
        injection H as H. now apply rejection_not_Error in H.
      * cbn [fst] in H. now injection H as <-.
    + destruct (byteLength iv =? 12)%nat; cbv zeta in H.
      * destruct (subtle_decrypt _ _ _) as [rej|c]; cbn [fst] in H;
          [|discriminate].
        injection H as H. now apply rejection_not_Error in H.
      * cbn [fst] in H. now injection H as <-.
Qed.

Lemma view_ok_live h v : view_ok h v -> (0 < byteLength v)%nat -> live h v.
Proof.
  unfold view_ok, live, buffer_bytes. intros Hok Hpos.
  destruct (h !! buffer v) as [bs|] eqn:E.
  - now apply lookup_lt_Some in E.
  - cbn in Hok. lia.
Qed.

Lemma algorithm_of_old h bs iv aad t :
  live h iv -> (forall a, aad = Some a -> live h a) ->
  algorithm_of (h ++ [bs]) iv aad t = algorithm_of h iv aad t.
Proof.
  intros Hiv Haad. unfold algorithm_of. f_equal.
  - now apply view_bytes_old.
  - destruct aad as [a|]; [|reflexivity]. cbn.
    f_equal. apply view_bytes_old. now apply Haad.
Qed.

Lemma view_bytes_fresh (h : list (list byte)) bs :
  view_bytes (h ++ [bs]) (whole (length h) (length bs)) = bs.
Proof.
  unfold view_bytes, whole. cbn [buffer byteOffset byteLength drop].
  rewrite buffer_bytes_alloc. now apply take_ge.
Qed.

(** C1. For a key admitted by [importKey], a 12-byte iv, any plaintext,
    aad and tag length: whenever [encrypt] produces a ciphertext,
    [decrypt] with the same key, iv, aad and tag length returns a buffer
    holding exactly the plaintext bytes; and for the legal tag lengths
    [encrypt] does produce one. *)
Theorem encrypt_decrypt_round_trip (laws : HostLaws host)
    (rawKey : Uint8Array) (w0 w1 : world) (key : CryptoKey)
    (pt iv : Uint8Array) (aad : option Uint8Array) (t : option Z)
    (w : world) :
  importKey rawKey w0 = (inr key, w1) ->
  byteLength iv = 12%nat ->
  view_ok (heap w) iv ->
  (forall a, aad = Some a -> live (heap w) a) ->
  let opts := {| opts_iv := Some iv; opts_aad := aad; opts_tagLength := t |} in
  (legal_tagLength (default 128 t) ->
   exists res w', encrypt key pt opts w = (inr res, w')) /\
  (forall res w',
     encrypt key pt opts w = (inr res, w') ->
     exists p w'',
       decrypt key iv (res_ciphertext res)
         {| opts_iv := None; opts_aad := aad; opts_tagLength := t |} w'
       = (inr p, w'') /\
       view_bytes (heap w'') p = view_bytes (heap w) pt).
Proof.
  intros Himp Hlen Hok Haad opts.
  apply importKey_admits in Himp.
  assert (live (heap w) iv) as Hiv by (apply view_ok_live; [assumption|lia]).
  subst opts. rewrite encrypt_with_iv, Hlen. cbn [Nat.eqb]. cbv zeta.
  split.
  - intros Ht.
    destruct (encrypt_fulfilled key (algorithm_of (heap w) iv aad t)
                (view_bytes (heap w) pt)) as [c Hc]; auto.
    { cbn. now rewrite length_view_bytes. }
    rewrite Hc. eauto.
  - intros res w'.
    destruct (subtle_encrypt _ _ _) as [rej|c] eqn:Hc; [discriminate|].
    intros [= <- <-]. cbn [res_ciphertext].
    rewrite decrypt_computes, Hlen. cbn [Nat.eqb]. cbv zeta.
    cbn [allocated logged heap].
    rewrite algorithm_of_old, view_bytes_fresh by assumption.
    rewrite (decrypt_encrypt _ _ _ _ Himp Hc).
    do 2 eexists. split; [reflexivity|].
    cbn [allocated logged heap]. apply view_bytes_fresh.
Qed.

(** What [decrypt] returns comes from the provider and from nowhere else:
    when the provider rejects, [decrypt] throws that rejection and no
    buffer is allocated; when it returns, the buffer holds exactly the
    bytes the provider gave. *)
Lemma decrypt_fails_closed key iv ct opts w :
  byteLength iv = 12%nat ->
  let alg := algorithm_of (heap w) iv (opts_aad opts) (opts_tagLength opts) in
  match subtle_decrypt alg key (view_bytes (heap w) ct) with
  | inl rej =>
      fst (decrypt key iv ct opts w) = inl (exn_of_rejection rej) /\
      heap (snd (decrypt key iv ct opts w)) = heap w
  | inr bytes =>
      exists p, fst (decrypt key iv ct opts w) = inr p /\
        view_bytes (heap (snd (decrypt key iv ct opts w))) p = bytes
  end.
Proof.
  intros Hlen. rewrite decrypt_computes', Hlen. cbn [Nat.eqb]. cbv zeta.
  destruct (subtle_decrypt _ _ _) as [rej|bytes]; cbn [fst snd].
  - auto.
  - eexists. split; [reflexivity|]. apply view_bytes_fresh.
Qed.

(** A store through a view is seen through that view. *)
Lemma store_byte_visible (v : Uint8Array) i b w :
  view_ok (heap w) v -> (i < byteLength v)%nat ->
  view_bytes (heap (snd (store_byte v i b w))) v !! i = Some b.
Proof.
  unfold view_ok, store_byte, view_bytes, buffer_bytes. intros Hok Hi.
  rewrite decide_True by assumption. cbn [snd heap].
  rewrite list_lookup_alter_eq.
  destruct (heap w !! buffer v) as [bs|]; cbn in *; [|lia].
  rewrite lookup_take_lt, lookup_drop by assumption.
  apply list_lookup_insert_eq. lia.
Qed.

(** A store through a view leaves every other buffer as it was. *)
Lemma store_byte_other (v : Uint8Array) i b w l :
  buffer v <> l ->
  buffer_bytes (heap (snd (store_byte v i b w))) l = buffer_bytes (heap w) l.
Proof.
  unfold store_byte, buffer_bytes. intros Hne. cbn [snd].
  destruct (decide (i < byteLength v)%nat); [|reflexivity].
  cbn [heap]. now rewrite list_lookup_alter_ne.
Qed.

(** C10. When the caller supplies the iv, the [iv] of the result is the
    caller's array itself: a later store through the caller's array is read
    back through the result.  The [ciphertext] is on a buffer that did not
    exist before the call, so it is the buffer of no array the caller held
    (plaintext, iv, aad, the copy of the key bytes), and stores through
    those leave it unchanged. *)
Theorem encrypt_result_aliasing (key : CryptoKey) (pt iv : Uint8Array)
    (aad : option Uint8Array) (t : option Z) (w w' : world)
    (res : EncryptResult) :
  encrypt key pt {| opts_iv := Some iv; opts_aad := aad; opts_tagLength := t |} w
  = (inr res, w') ->
  res_iv res = iv /\
  (forall i b, view_ok (heap w') iv -> (i < byteLength iv)%nat ->
     view_bytes (heap (snd (store_byte iv i b w'))) (res_iv res) !! i = Some b) /\
  ~ live (heap w) (res_ciphertext res) /\
  live (heap w') (res_ciphertext res) /\
  (forall v, live (heap w) v -> buffer v <> buffer (res_ciphertext res)) /\
  (forall v i b, live (heap w) v ->
     view_bytes (heap (snd (store_byte v i b w'))) (res_ciphertext res)
     = view_bytes (heap w') (res_ciphertext res)).
Proof.
  rewrite encrypt_with_iv.
  destruct (byteLength iv =? 12)%nat; [|discriminate]. cbv zeta.
  destruct (subtle_encrypt _ _ _) as [rej|c]; [discriminate|].
  intros [= <- <-]. cbn [res_iv res_ciphertext allocated logged heap].
  unfold live, whole. cbn [buffer]. rewrite length_app. cbn [length].
  split; [reflexivity|].
  split; [intros i b Hok Hi; now apply store_byte_visible|].
  split; [lia|]. split; [lia|]. split; [lia|].
  intros v i b Hv. unfold view_bytes. cbn [buffer byteOffset byteLength].
  rewrite store_byte_other by lia. reflexivity.
Qed.

End Claims.

(** ** Properties of [src/encoders.ts]: [bytesToUtf8] *)

Section Utf8.
Context `{host : Host}.


End Utf8.

(** ** The properties on concrete inputs *)

Import ModelHost Demo.


Lemma importKey_checks_length_witness :
  (exists key w',
     importKey (whole 0 32) demo_world = (inr key, w') /\ admitted key /\
     calls w' = [SubtleImportKey "raw" key_bytes "AES-GCM" true
                   ["encrypt"; "decrypt"]%string]) /\
  importKey (whole 4 16) demo_world = (inl InvalidKeyLength, demo_world).
Proof.
  split.
  - apply (proj2 (proj2 (importKey_checks_length model_host_laws
                           (whole 0 32) demo_world))).
    + reflexivity.
    + unfold view_ok. vm_compute. lia.
  - apply (proj1 (proj2 (importKey_checks_length model_host_laws
                           (whole 4 16) demo_world))).
    vm_compute. lia.
Defined.

Lemma encrypt_decrypt_round_trip_witness :
  exists res w' p w'',
    encrypt key_bytes (whole 1 2) demo_opts demo_world = (inr res, w') /\
    decrypt key_bytes (whole 2 12) (res_ciphertext res)
      {| opts_iv := None; opts_aad := Some (whole 3 1);
         opts_tagLength := Some 96 |} w' = (inr p, w'') /\
    view_bytes (heap w'') p = pt_bytes.
Proof.
  assert (importKey (whole 0 32) demo_world
          = (inr key_bytes,
             snd (importKey (whole 0 32) demo_world))) as Himp
    by reflexivity.
  assert (view_ok (heap demo_world) (whole 2 12)) as Hok
    by (unfold view_ok; vm_compute; lia).
  assert (forall a, Some (whole 3 1) = Some a -> live (heap demo_world) a)
    as Haad by (intros a [= <-]; unfold live; vm_compute; lia).
  destruct (encrypt_decrypt_round_trip model_host_laws _ _ _ _
              (whole 1 2) (whole 2 12) (Some (whole 3 1)) (Some 96)
              demo_world Himp eq_refl Hok Haad) as [Hdef Hrt].
  destruct Hdef as (res & w' & Henc).
  { unfold legal_tagLength. cbn. auto. }
  destruct (Hrt res w' Henc) as (p & w'' & Hdec & Hbytes).
  exists res, w', p, w''. auto.
Defined.

Lemma encrypt_result_aliasing_witness :
  exists res w',
    encrypt key_bytes (whole 1 2) demo_opts demo_world = (inr res, w') /\
    res_iv res = whole 2 12 /\
    ~ live (heap demo_world) (res_ciphertext res) /\
    buffer (whole 1 2) <> buffer (res_ciphertext res) /\
    buffer (whole 2 12) <> buffer (res_ciphertext res).
Proof.
  assert (exists res w',
            @encrypt model_host key_bytes (whole 1 2) demo_opts demo_world
            = (inr res, w')) as (res & w' & Henc)
    by (do 2 eexists; vm_compute; reflexivity).
  exists res, w'. split; [exact Henc|].
  destruct (encrypt_result_aliasing (host := model_host) key_bytes
              (whole 1 2) (whole 2 12) (Some (whole 3 1)) (Some 96)
              demo_world w' res Henc)
    as (Hiv & _ & Hfresh & _ & Hne & _).
  split; [exact Hiv|]. split; [exact Hfresh|].
  split; apply Hne; unfold live; cbn; lia.
Defined.

(** The functional contract of the provider says nothing about wrong keys:
    the model host meets it, and there a ciphertext made under one key is
    accepted under another.  That decryption under a wrong key, iv, aad or
    tag length fails is a statement about the strength of the cipher the
    provider implements, not about this module. *)
Lemma contract_leaves_authenticity_open :
  HostLaws model_host /\
  key_bytes <> other_key_bytes /\
  match encrypt key_bytes (whole 1 2) demo_opts demo_world with
  | (inr res, w') =>
      match decrypt other_key_bytes (whole 2 12) (res_ciphertext res)
              demo_opts w' with
      | (inr p, w'') => view_bytes (heap w'') p = pt_bytes
      | (inl _, _) => False
      end
  | (inl _, _) => False
  end.
Proof.
  split; [exact model_host_laws|]. split; [discriminate|].
  vm_compute. reflexivity.
Qed.

(** * Further properties of the encoders *)

Lemma length_sextets_exact l :
  length (sextets l) = ((4 * length l + 2) / 3)%nat.
Proof.
  induction l as [|a|a b|a b c l IH] using list_ind3; try reflexivity.
  change (sextets (a :: b :: c :: l)) with
    (a / 4 :: a mod 4 * 16 + b / 16 :: b mod 16 * 4 + c / 64 :: c mod 64
     :: sextets l).
  cbn [length]. rewrite IH. lia.
Qed.

Lemma length_padding n : length (padding n) = ((3 - n mod 3) mod 3)%nat.
Proof. apply length_replicate. Qed.

Lemma length_base64_encode l :
  length (base64_encode l) = (4 * ((length l + 2) / 3))%nat.
Proof.
  unfold base64_encode.
  rewrite length_app, length_map, length_sextets_exact, length_padding. lia.
Qed.

Lemma alphabet_or_pad_encode l :
  Forall is_octet l ->
  Forall (fun c => is_alphabet c \/ c = 61) (base64_encode l).
Proof.
  intros Hl. unfold base64_encode. apply Forall_app. split.
  - eapply Forall_impl; [apply alphabet_map_char, sextets_range, Hl|].
    intros c Hc. left. now apply is_alphabet_value.
  - eapply Forall_impl; [apply padding_all_eq|]. intros c ->. now right.
Qed.

(** X1. [toBase64] never throws: it returns a text of 4 * ceil(n / 3)
    characters, each in A-Z a-z 0-9 + / or '='. *)
Theorem toBase64_shape (B : list byte) :
  exists s,
    toBase64 B = inr s /\
    length s = (4 * ((length B + 2) / 3))%nat /\
    Forall (fun c => is_alphabet c \/ c = 61) s.
Proof.
  eexists. split; [apply toBase64_encode|]. split.
  - now rewrite length_base64_encode, length_map.
  - apply alphabet_or_pad_encode, octets_of_bytes.
Qed.

Lemma url_char_safe c : is_alphabet c -> is_url_safe (url_char c).
Proof.
  unfold is_alphabet, is_url_safe, url_char. intros Hc.
  destruct (Z.eqb_spec c 43); [lia|].
  destruct (Z.eqb_spec c 47); lia.
Qed.

(** X2. [toBase64Url] never throws: it returns a text of ceil(4n / 3)
    characters, each in A-Z a-z 0-9 - _ ; so no '+', '/', '=' or '.'
    occurs in it. *)
Theorem toBase64Url_url_safe (B : list byte) :
  exists u,
    toBase64Url B = inr u /\
    length u = ((4 * length B + 2) / 3)%nat /\
    Forall is_url_safe u.
Proof.
  eexists. split; [apply toBase64Url_encode|]. split.
  - now rewrite !length_map, length_sextets_exact, length_map.
  - rewrite Forall_map.
    eapply Forall_impl;
      [apply alphabet_map_char, sextets_range, octets_of_bytes|].
    intros c Hc. now apply url_char_safe, is_alphabet_value.
Qed.

(** X3. Both encoders are injective: different byte sequences never
    get the same text. *)
Theorem encoders_injective (B1 B2 : list byte) :
  toBase64 B1 = toBase64 B2 \/ toBase64Url B1 = toBase64Url B2 -> B1 = B2.
Proof.
  intros [H|H].
  - rewrite !toBase64_encode in H. injection H as H.
    pose proof (fromBase64_encode B1) as H1. rewrite H in H1.
    rewrite fromBase64_encode in H1. now injection H1.
  - rewrite !toBase64Url_encode in H. injection H as H.
    assert (forall B, fromBase64Url
              (map url_char (map b64_char (sextets (map code_of_byte B))))
            = inr B) as Hd.
    { intros B. unfold fromBase64Url.
      rewrite (fromBase64Url_padded B). apply fromBase64_encode. }
    pose proof (Hd B1) as H1. rewrite H, Hd in H1. now injection H1.
Qed.

Lemma encoders_injective_witness :
  toBase64 [x01; x02] = toBase64 [x01; x02] /\ [x01; x02] = [x01; x02].
Proof.
  split; [reflexivity|].
  apply (encoders_injective [x01; x02] [x01; x02]). left. reflexivity.
Defined.

Lemma replace_all_id c d s : Forall (fun x => x <> c) s -> replace_all c d s = s.
Proof.
  induction 1 as [|x s Hx _ IH]; [reflexivity|].
  unfold replace_all in *. cbn [map]. rewrite IH.
  destruct (Z.eqb_spec x c); [contradiction|reflexivity].
Qed.

(** X4. [fromBase64Url] also reads standard, padded Base64: it decodes
    every output of [toBase64]. *)
Theorem fromBase64Url_reads_standard (B : list byte) :
  exists s, toBase64 B = inr s /\ fromBase64Url s = inr B.
Proof.
  eexists. split; [apply toBase64_encode|].
  unfold fromBase64Url.
  pose proof (alphabet_or_pad_encode _ (octets_of_bytes B)) as Hs.
  rewrite (replace_all_id 45), (replace_all_id 95).
  - rewrite length_base64_encode.
    replace ((4 * ((length (map code_of_byte B) + 2) / 3) + 3) mod 4)%nat
      with 3%nat by lia.
    cbn [drop js]. rewrite app_nil_r. apply fromBase64_encode.
  - eapply Forall_impl; [exact Hs|]. unfold is_alphabet. intros c Hc. lia.
  - eapply Forall_impl; [exact Hs|]. unfold is_alphabet. intros c Hc. lia.
Qed.

Lemma is_ascii_whitespace_61 : is_ascii_whitespace 61 = false.
Proof. reflexivity. Qed.

Lemma mapM_value_pad y : mapM b64_value (y ++ [61]) = None.
Proof.
  apply mapM_None. apply Exists_app. right. now constructor.
Qed.

(** A text that ends in three '=' is never decoded. *)
Lemma decode_three_pads t :
  forgiving_base64_decode (t ++ [61; 61; 61]) = None.
Proof.
  unfold forgiving_base64_decode. cbv zeta.
  rewrite filter_app.
  change (filter _ [61; 61; 61]) with [61; 61; 61].
  generalize (filter (fun c => is_ascii_whitespace c = false) t). intros x.
  assert (exists y, strip_padding (x ++ [61; 61; 61]) = y ++ [61]) as [y ->].
  { unfold strip_padding.
    destruct (_ =? _)%nat.
    - exists x. change (x ++ [61; 61; 61]) with (x ++ [61] ++ [61] ++ [61]).
      now rewrite !app_assoc, !drop_trailing_eq_snoc.
    - exists (x ++ [61; 61]). now rewrite <- app_assoc. }
  rewrite mapM_value_pad. now destruct (_ =? _)%nat.
Qed.

(** X5. [fromBase64Url] rejects every text whose length is 1 modulo 4,
    whatever its characters. *)
Theorem fromBase64Url_rejects_length_1_mod_4 (s : jsstring) :
  (length s mod 4)%nat = 1%nat -> fromBase64Url s = inl InvalidEncoding.
Proof.
  intros Hlen. unfold fromBase64Url.
  replace ((length s + 3) mod 4)%nat with 0%nat by lia.
  cbn [drop]. change (js "===") with [61; 61; 61].
  unfold fromBase64, atob. now rewrite decode_three_pads.
Qed.

Lemma fromBase64Url_rejects_length_1_mod_4_witness :
  fromBase64Url (js "AQIDB") = inl InvalidEncoding.
Proof.
  apply fromBase64Url_rejects_length_1_mod_4. reflexivity.
Defined.

(** *** Encoding in pieces *)

Lemma sextets_app a b :
  (length a mod 3)%nat = 0%nat -> sextets (a ++ b) = sextets a ++ sextets b.
Proof.
  induction a as [|x|x y|x y z a IH] using list_ind3; intros Hlen.
  - reflexivity.
  - discriminate.
  - discriminate.
  - cbn [length] in Hlen.
    change ((x :: y :: z :: a) ++ b) with (x :: y :: z :: (a ++ b)).
    change (sextets (x :: y :: z :: ?l)) with
      (x / 4 :: x mod 4 * 16 + y / 16 :: y mod 16 * 4 + z / 64 :: z mod 64
       :: sextets l).
    rewrite IH by lia. reflexivity.
Qed.

Lemma padding_add a b : (a mod 3)%nat = 0%nat -> padding (a + b) = padding b.
Proof.
  intros Ha. unfold padding. f_equal. lia.
Qed.

Lemma base64_encode_app a b :
  (length a mod 3)%nat = 0%nat ->
  base64_encode (a ++ b) = base64_encode a ++ base64_encode b.
Proof.
  intros Ha. unfold base64_encode.
  rewrite sextets_app, map_app, length_app, padding_add by assumption.
  destruct (padding_cases (length a)) as [[_ ->]|[[E _]|[E _]]]; try lia.
  now rewrite app_nil_r, app_assoc.
Qed.

(** The text of [a] followed by the text of [b] is not decoded when [a]
    ends in an incomplete group and [b] is not empty: the padding of [a]
    is in the middle. *)
Lemma decode_pad_inside x y :
  (2 < length y)%nat -> Forall (fun c => is_ascii_whitespace c = false) x ->
  Forall (fun c => is_ascii_whitespace c = false) y ->
  forgiving_base64_decode (x ++ [61] ++ y) = None.
Proof.
  intros Hy Hx Hwy.
  destruct (forgiving_base64_decode (x ++ [61] ++ y)) as [bs|] eqn:E;
    [|reflexivity].
  apply decodes_well_formed in E.
  destruct E as (body & pad & Hf & Hbody & Hpad).
  rewrite (filter_all (fun c => is_ascii_whitespace c = false)) in Hf.
  2:{ apply Forall_app. split; [assumption|].
      apply Forall_app. split; [now repeat constructor|assumption]. }
  assert ((length pad <= 2)%nat) as Hp.
  { destruct Hpad as [[-> _]|[[->| ->] _]]; cbn; lia. }
  assert (body !! length x = Some 61) as Hb.
  { assert ((body ++ pad) !! length x = Some 61) as Hl.
    { rewrite <- Hf. rewrite lookup_app_r by lia.
      now rewrite Nat.sub_diag. }
    rewrite lookup_app_l in Hl; [exact Hl|].
    apply (f_equal length) in Hf. rewrite !length_app in Hf.
    cbn [length] in Hf. lia. }
  apply (Forall_lookup_1 _ _ _ _ Hbody) in Hb. unfold is_alphabet in Hb. lia.
Qed.

(** X6. Encoding in pieces.  When the length of [a] is a multiple of 3,
    the text of [a ++ b] is the text of [a] followed by the text of [b].
    Otherwise, for a non-empty [b], the two texts put together are not
    even decodable: [fromBase64] fails on them. *)
Theorem toBase64_in_pieces (a b : list byte) :
  exists sa sb,
    toBase64 a = inr sa /\ toBase64 b = inr sb /\
    ((length a mod 3)%nat = 0%nat -> toBase64 (a ++ b) = inr (sa ++ sb)) /\
    ((length a mod 3)%nat <> 0%nat -> b <> [] ->
     fromBase64 (sa ++ sb) = inl InvalidEncoding).
Proof.
  do 2 eexists. split; [apply toBase64_encode|].
  split; [apply toBase64_encode|]. split.
  - intros Ha. rewrite toBase64_encode, map_app.
    rewrite base64_encode_app by now rewrite length_map. reflexivity.
  - intros Ha Hb. unfold fromBase64, atob.
    assert (exists x,
              base64_encode (map code_of_byte a) = x ++ [61] /\
              Forall (fun c => is_ascii_whitespace c = false) x) as (x & -> & Hx).
    { unfold base64_encode.
      pose proof (alphabet_not_whitespace _
                    (alphabet_map_char _
                       (sextets_range _ (octets_of_bytes a)))) as Hw.
      destruct (padding_cases (length (map code_of_byte a)))
        as [[E _]|[[_ ->]|[_ ->]]].
      - rewrite length_map in E. lia.
      - eexists. split.
        + change [61; 61] with ([61] ++ [61]). now rewrite app_assoc.
        + apply Forall_app. split; [exact Hw|now repeat constructor].
      - eexists. split; [reflexivity|exact Hw]. }
    rewrite <- app_assoc. rewrite decode_pad_inside; [reflexivity| |exact Hx|].
    + rewrite length_base64_encode, length_map.
      destruct b; [contradiction|]. cbn [length]. lia.
    + eapply Forall_impl;
        [apply (alphabet_or_pad_encode _ (octets_of_bytes b))|].
      intros c [Hc| ->]; [|reflexivity].
      apply is_alphabet_value in Hc. destruct Hc as [v Hv].
      apply b64_value_Some in Hv. tauto.
Qed.

(** *** The transport format of the README *)

Lemma split_on_none sep u : Forall (fun c => c <> sep) u -> split_on sep u = [u].
Proof.
  induction 1 as [|c u Hc _ IH]; [reflexivity|].
  cbn [split_on]. rewrite IH.
  destruct (Z.eqb_spec c sep); [contradiction|reflexivity].
Qed.

Lemma split_on_first sep u v :
  Forall (fun c => c <> sep) u ->
  split_on sep (u ++ sep :: v) = u :: split_on sep v.
Proof.
  induction 1 as [|c u Hc _ IH].
  - cbn [app split_on]. now rewrite Z.eqb_refl.
  - cbn [app split_on]. rewrite IH.
    destruct (Z.eqb_spec c sep); [contradiction|reflexivity].
Qed.

Lemma url_safe_no_dot u : Forall is_url_safe u -> Forall (fun c => c <> 46) u.
Proof.
  intros Hu. eapply Forall_impl; [exact Hu|].
  unfold is_url_safe. intros c Hc. lia.
Qed.

Lemma fromBase64Url_toBase64Url (B : list byte) :
  fromBase64Url (map url_char (map b64_char (sextets (map code_of_byte B))))
  = inr B.
Proof.
  unfold fromBase64Url. rewrite (fromBase64Url_padded B).
  apply fromBase64_encode.
Qed.

Lemma url_text_safe (B : list byte) : Forall is_url_safe (url_text B).
Proof.
  unfold url_text. rewrite Forall_map.
  eapply Forall_impl;
    [apply alphabet_map_char, sextets_range, octets_of_bytes|].
  intros c Hc. now apply url_char_safe, is_alphabet_value.
Qed.

Lemma split_packed (B1 B2 : list byte) :
  split_on 46 (url_text B1 ++ js "." ++ url_text B2)
  = [url_text B1; url_text B2].
Proof.
  change (js ".") with [46]. cbn [app].
  rewrite split_on_first by apply url_safe_no_dot, url_text_safe.
  now rewrite split_on_none by apply url_safe_no_dot, url_text_safe.
Qed.

(** X7. The packed form [toBase64Url(iv) + "." + toBase64Url(ciphertext)]
    splits at "." into exactly its two fields, whatever the bytes, and
    [fromBase64Url] gives the iv and the ciphertext back. *)
Theorem packed_fields_recovered (IV CT : list byte) :
  exists u1 u2,
    toBase64Url IV = inr u1 /\ toBase64Url CT = inr u2 /\
    split_on 46 (u1 ++ js "." ++ u2) = [u1; u2] /\
    fromBase64Url u1 = inr IV /\ fromBase64Url u2 = inr CT.
Proof.
  exists (url_text IV), (url_text CT).
  split; [apply toBase64Url_encode|]. split; [apply toBase64Url_encode|].
  split; [apply split_packed|].
  split; apply fromBase64Url_toBase64Url.
Qed.

(** *** Which texts [fromBase64Url] accepts *)

Lemma body_unique (t b p p' : jsstring) :
  Forall (fun c => c <> 61) t -> Forall (fun c => c <> 61) b ->
  Forall (fun c => c = 61) p -> Forall (fun c => c = 61) p' ->
  t ++ p = b ++ p' -> t = b.
Proof.
  intros Ht. revert b. induction Ht as [|c t Hc _ IH]; intros b Hb Hp Hp' E.
  - destruct b as [|c b]; [reflexivity|]. cbn [app] in E. subst p.
    inversion_clear Hb as [|? ? Hc _]. inversion_clear Hp as [|? ? Hc' _].
    contradiction.
  - destruct b as [|c' b].
    + cbn [app] in E. subst p'. inversion_clear Hp' as [|? ? Hc' _].
      contradiction.
    + cbn [app] in E. injection E as -> E.
      inversion_clear Hb as [|? ? _ Hb']. f_equal. now apply IH.
Qed.

Lemma translated_alphabet s :
  Forall is_url_or_standard s <->
  Forall is_alphabet (replace_all 95 47 (replace_all 45 43 s)).
Proof.
  unfold replace_all. rewrite map_map, Forall_map.
  apply Forall_iff. intros c. cbn beta.
  unfold is_url_or_standard, is_alphabet.
  destruct (Z.eqb_spec c 45) as [->|]; [cbn; lia|].
  destruct (Z.eqb_spec c 95) as [->|]; lia.
Qed.

Lemma translated_clean s :
  Forall (fun c => c <> 61 /\ is_ascii_whitespace c = false) s ->
  Forall (fun c => c <> 61 /\ is_ascii_whitespace c = false)
    (replace_all 95 47 (replace_all 45 43 s)).
Proof.
  intros Hs. unfold replace_all. rewrite map_map, Forall_map.
  eapply Forall_impl; [exact Hs|]. intros c [Hc Hw]. cbn beta.
  destruct (Z.eqb_spec c 45) as [->|]; [cbn; split; [lia|reflexivity]|].
  destruct (Z.eqb_spec c 95) as [->|]; [split; [lia|reflexivity]|].
  now split.
Qed.

(** X8. On a text without '=' and without whitespace, [fromBase64Url]
    fails with InvalidEncoding exactly when a character is outside
    A-Z a-z 0-9 - _ + / or the length is 1 modulo 4; on every other such
    text it returns bytes.  (It takes '+' and '/' as well as '-' and
    '_'.) *)
Theorem fromBase64Url_fails_iff (s : jsstring) :
  Forall (fun c => c <> 61 /\ is_ascii_whitespace c = false) s ->
  (fromBase64Url s = inl InvalidEncoding <->
   ~ (Forall is_url_or_standard s /\ (length s mod 4)%nat <> 1%nat)) /\
  (Forall is_url_or_standard s -> (length s mod 4)%nat <> 1%nat ->
   exists bytes, fromBase64Url s = inr bytes).
Proof.
  intros Hs.
  pose proof (translated_clean s Hs) as Ht.
  pose proof (translated_alphabet s) as Ha.
  assert (length (replace_all 95 47 (replace_all 45 43 s)) = length s) as Hlen
    by (unfold replace_all; now rewrite !length_map).
  unfold fromBase64Url. change (js "===") with [61; 61; 61].
  set (t := replace_all 95 47 (replace_all 45 43 s)) in *.
  set (pad := drop ((length s + 3) mod 4)%nat [61; 61; 61]).
  assert (Forall (fun c => c = 61) pad) as Hpad61.
  { unfold pad. apply Forall_drop. now repeat constructor. }
  assert (filter (fun c => is_ascii_whitespace c = false) (t ++ pad) = t ++ pad)
    as Hfilter.
  { apply (filter_all (fun c => is_ascii_whitespace c = false)).
    apply Forall_app. split.
    - eapply Forall_impl; [exact Ht|]. now intros c [_ Hw].
    - eapply Forall_impl; [exact Hpad61|]. now intros c ->. }
  assert (Forall is_alphabet t -> (length s mod 4)%nat <> 1%nat ->
          well_formed_base64 (t ++ pad)) as Hwf.
  { intros Halpha Hmod. exists t, pad. split; [exact Hfilter|].
    split; [exact Halpha|]. rewrite length_app, Hlen. unfold pad.
    assert ((length s mod 4)%nat = 0%nat \/ (length s mod 4)%nat = 2%nat
            \/ (length s mod 4)%nat = 3%nat) as [E|[E|E]] by lia.
    - replace ((length s + 3) mod 4)%nat with 3%nat by lia.
      left. split; [reflexivity|lia].
    - replace ((length s + 3) mod 4)%nat with 1%nat by lia.
      right. split; [now right|cbn [drop length]; lia].
    - replace ((length s + 3) mod 4)%nat with 2%nat by lia.
      right. split; [now left|cbn [drop length]; lia]. }
  assert (Forall is_url_or_standard s -> (length s mod 4)%nat <> 1%nat ->
          exists bytes, fromBase64 (t ++ pad) = inr bytes) as Hok.
  { intros Halpha Hmod. apply Ha in Halpha.
    destruct (well_formed_decodes _ (Hwf Halpha Hmod)) as [bs Hbs].
    unfold fromBase64, atob. rewrite Hbs. eauto. }
  split; [|exact Hok]. split.
  - intros Hfail [Halpha Hmod]. destruct (Hok Halpha Hmod) as [bytes Hb].
    congruence.
  - intros Hbad. unfold fromBase64, atob.
    destruct (forgiving_base64_decode (t ++ pad)) as [bs|] eqn:E;
      [|reflexivity].
    exfalso. apply Hbad.
    assert ((length s mod 4)%nat <> 1%nat) as Hmod.
    { intros Hmod. unfold pad in E.
      replace ((length s + 3) mod 4)%nat with 0%nat in E by lia.
      cbn [drop] in E. now rewrite decode_three_pads in E. }
    split; [|exact Hmod]. apply Ha.
    apply decodes_well_formed in E.
    destruct E as (body & pad' & Hf & Hbody & Hpad').
    rewrite Hfilter in Hf.
    assert (t = body) as ->; [|exact Hbody].
    apply (body_unique t body pad pad'); try assumption.
    + eapply Forall_impl; [exact Ht|]. now intros c [Hc _].
    + eapply Forall_impl; [exact Hbody|]. unfold is_alphabet. intros c Hc. lia.
    + destruct Hpad' as [[-> _]|[[->| ->] _]]; now repeat constructor.
Qed.

Lemma fromBase64Url_fails_iff_witness :
  exists bytes, fromBase64Url (js "_-7d+w") = inr bytes.
Proof.
  assert (Forall (fun c => c <> 61 /\ is_ascii_whitespace c = false)
            (js "_-7d+w")) as Hclean.
  { change (js "_-7d+w") with [95; 45; 55; 100; 43; 119].
    repeat (constructor; [split; [lia|reflexivity]|]). constructor. }
  apply (proj2 (fromBase64Url_fails_iff (js "_-7d+w") Hclean)).
  - change (js "_-7d+w") with [95; 45; 55; 100; 43; 119].
    unfold is_url_or_standard, is_alphabet.
    repeat (constructor; [lia|]). constructor.
  - cbn. lia.
Defined.

(** * Further properties: [concatBytes] *)

Section ConcatProps.
Context `{host : Host}.

Lemma alter_last {A} (f : A -> A) (h : list A) x :
  alter f (length h) (h ++ [x]) = h ++ [f x].
Proof.
  rewrite alter_app_r_alt by reflexivity. now rewrite Nat.sub_diag.
Qed.

Lemma concatBytes_computes (a b : Uint8Array) (w : world) :
  valid (heap w) a -> valid (heap w) b ->
  concatBytes a b w =
  (inr (whole (length (heap w)) (byteLength a + byteLength b)),
   allocated (view_bytes (heap w) a ++ view_bytes (heap w) b) w).
Proof.
  intros [Hla Hoa] [Hlb Hob].
  pose proof (length_view_bytes _ _ Hoa) as HA.
  pose proof (length_view_bytes _ _ Hob) as HB.
  unfold concatBytes, new_Uint8Array, lift, typed_array_set, alloc.
  unfold mbind, M'_bind, M_bind, mret, M'_ret, M_ret.
  cbn [heap entropy calls byteLength byteOffset buffer].
  replace (0 + byteLength a <=? byteLength a + byteLength b)%nat with true
    by (symmetry; apply Nat.leb_le; lia).
  cbn [heap entropy calls].
  replace (byteLength a + byteLength b <=? byteLength a + byteLength b)%nat
    with true by (symmetry; apply Nat.leb_le; lia).
  unfold whole, allocated. f_equal. f_equal.
  rewrite (view_bytes_old _ _ a Hla).
  rewrite (alter_last _ (heap w)).
  rewrite (view_bytes_old _ _ b Hlb).
  rewrite (alter_last _ (heap w)). f_equal. f_equal.
  cbn [Nat.add]. rewrite take_0. cbn [app].
  rewrite take_app_length' by (symmetry; exact HA).
  rewrite drop_ge; [now rewrite app_nil_r|].
  rewrite length_app, length_drop, length_replicate. lia.
Qed.

Lemma concatBytes_result (a b : Uint8Array) (w : world) :
  valid (heap w) a -> valid (heap w) b ->
  exists out w',
    concatBytes a b w = (inr out, w') /\
    view_bytes (heap w') out = view_bytes (heap w) a ++ view_bytes (heap w) b /\
    valid (heap w') out /\
    heap w' = heap w ++ [view_bytes (heap w) a ++ view_bytes (heap w) b].
Proof.
  intros Ha Hb. do 2 eexists. split; [now apply concatBytes_computes|].
  pose proof (length_view_bytes _ _ (proj2 Ha)) as HA.
  pose proof (length_view_bytes _ _ (proj2 Hb)) as HB.
  cbn [allocated heap]. split; [|split; [split|reflexivity]].
  - replace (byteLength a + byteLength b)%nat
      with (length (view_bytes (heap w) a ++ view_bytes (heap w) b))
      by (rewrite length_app; lia).
    apply view_bytes_fresh.
  - unfold live, whole. cbn [buffer]. rewrite length_app. cbn [length]. lia.
  - unfold view_ok, whole. cbn [buffer byteOffset byteLength].
    rewrite buffer_bytes_alloc, length_app. lia.
Qed.

(** X9. [concatBytes(a, b)] never throws; it returns an array of
    [a.length + b.length] elements, the elements of [a] followed by those
    of [b], on a buffer that did not exist before.  Nothing else changes:
    the old buffers are as they were, and a later store through any array
    the caller held (also [a] or [b], also when one of them is empty) is
    not seen through the result. *)
Theorem concatBytes_new_buffer (a b : Uint8Array) (w : world) :
  valid (heap w) a -> valid (heap w) b ->
  exists out w',
    concatBytes a b w = (inr out, w') /\
    byteLength out = (byteLength a + byteLength b)%nat /\
    view_bytes (heap w') out = view_bytes (heap w) a ++ view_bytes (heap w) b /\
    ~ live (heap w) out /\ valid (heap w') out /\
    heap w' = heap w ++ [view_bytes (heap w') out] /\
    entropy w' = entropy w /\ calls w' = calls w /\
    (forall v i x, live (heap w) v ->
       view_bytes (heap (snd (store_byte v i x w'))) out
       = view_bytes (heap w') out).
Proof.
  intros Ha Hb. do 2 eexists. split; [now apply concatBytes_computes|].
  pose proof (length_view_bytes _ _ (proj2 Ha)) as HA.
  pose proof (length_view_bytes _ _ (proj2 Hb)) as HB.
  assert (view_bytes (heap w ++ [view_bytes (heap w) a ++ view_bytes (heap w) b])
            (whole (length (heap w)) (byteLength a + byteLength b))
          = view_bytes (heap w) a ++ view_bytes (heap w) b) as Hout.
  { replace (byteLength a + byteLength b)%nat
      with (length (view_bytes (heap w) a ++ view_bytes (heap w) b))
      by (rewrite length_app; lia).
    apply view_bytes_fresh. }
  cbn [allocated heap entropy calls]. rewrite Hout.
  split; [reflexivity|]. split; [reflexivity|].
  split; [unfold live, whole; cbn [buffer]; lia|].
  split.
  { split.
    - unfold live, whole. cbn [buffer]. rewrite length_app. cbn [length]. lia.
    - unfold view_ok, whole. cbn [buffer byteOffset byteLength].
      rewrite buffer_bytes_alloc, length_app. lia. }
  split; [reflexivity|]. split; [reflexivity|]. split; [reflexivity|].
  intros v i x Hv. etransitivity; [|exact Hout].
  unfold view_bytes, whole. cbn [buffer byteOffset byteLength].
  rewrite store_byte_other; [reflexivity|]. unfold live in Hv. lia.
Qed.

Lemma valid_old h bs v : valid h v -> valid (h ++ [bs]) v.
Proof.
  intros [Hl Ho]. split.
  - unfold live in *. rewrite length_app. lia.
  - unfold view_ok in *. now rewrite buffer_bytes_old.
Qed.

Lemma view_bytes_empty h v : byteLength v = 0%nat -> view_bytes h v = [].
Proof. intros E. unfold view_bytes. now rewrite E. Qed.

(** X10. Chained concatenations are associative in what they return:
    [concatBytes(concatBytes(a, b), c)] and [concatBytes(a, concatBytes(b,
    c))] both succeed and hold the elements of [a], [b] and [c] in order.
    An empty operand is neutral: the result then holds the elements of
    the other operand. *)
Theorem concatBytes_associative (a b c : Uint8Array) (w : world) :
  valid (heap w) a -> valid (heap w) b -> valid (heap w) c ->
  let A := view_bytes (heap w) a in
  let B := view_bytes (heap w) b in
  let C := view_bytes (heap w) c in
  (exists o1 w1 o2 w2,
     (ab ← concatBytes a b; concatBytes ab c) w = (inr o1, w1) /\
     (bc ← concatBytes b c; concatBytes a bc) w = (inr o2, w2) /\
     view_bytes (heap w1) o1 = A ++ B ++ C /\
     view_bytes (heap w2) o2 = A ++ B ++ C) /\
  (exists o w', concatBytes a b w = (inr o, w') /\
     (byteLength a = 0%nat -> view_bytes (heap w') o = B) /\
     (byteLength b = 0%nat -> view_bytes (heap w') o = A)).
Proof.
  intros Ha Hb Hc A B C. split.
  - destruct (concatBytes_result a b w Ha Hb)
      as (ab & wab & Hab & Bab & Vab & Hhab).
    destruct (concatBytes_result b c w Hb Hc)
      as (bc & wbc & Hbc & Bbc & Vbc & Hhbc).
    assert (valid (heap wab) c /\ view_bytes (heap wab) c = C) as [Vc Bc].
    { rewrite Hhab. split; [now apply valid_old|].
      apply view_bytes_old, Hc. }
    assert (valid (heap wbc) a /\ view_bytes (heap wbc) a = A) as [Va Ba].
    { rewrite Hhbc. split; [now apply valid_old|].
      apply view_bytes_old, Ha. }
    destruct (concatBytes_result ab c wab Vab Vc)
      as (o1 & w1 & H1 & B1 & _).
    destruct (concatBytes_result a bc wbc Va Vbc)
      as (o2 & w2 & H2 & B2 & _).
    exists o1, w1, o2, w2.
    unfold mbind, M'_bind. rewrite Hab, Hbc.
    split; [exact H1|]. split; [exact H2|].
    rewrite B1, B2, Bab, Bbc, Bc, Ba. fold A B C.
    split; [now rewrite <- app_assoc|reflexivity].
  - destruct (concatBytes_result a b w Ha Hb)
      as (o & w' & Hab & Bab & _).
    exists o, w'. split; [exact Hab|]. rewrite Bab. split; intros E.
    + now rewrite (view_bytes_empty _ a E).
    + rewrite (view_bytes_empty _ b E). apply app_nil_r.
Qed.

End ConcatProps.

(** * Further properties of [src/aes-gcm.ts] *)

Lemma view_bytes_extends h h' v :
  extends h h' -> live h v -> view_bytes h' v = view_bytes h v.
Proof.
  intros [added ->] Hv. unfold view_bytes, buffer_bytes.
  now rewrite lookup_app_l by exact Hv.
Qed.

Lemma extends_refl h : extends h h.
Proof. exists []. now rewrite app_nil_r. Qed.

Lemma extends_one h bs : extends h (h ++ [bs]).
Proof. now exists [bs]. Qed.

Lemma extends_two h bs cs : extends h ((h ++ [bs]) ++ [cs]).
Proof. exists [bs; cs]. now rewrite <- app_assoc. Qed.

Section Frame.
Context `{host : Host}.

Lemma encrypt_extends key pt opts w :
  extends (heap w) (heap (snd (encrypt key pt opts w))).
Proof.
  rewrite encrypt_computes.
  destruct opts as [[iv|] aad t]; unfold chosen_iv; cbn [opts_iv].
  - destruct (byteLength iv =? 12)%nat; [|apply extends_refl]. cbv zeta.
    destruct (subtle_encrypt _ _ _); cbn; [apply extends_refl|apply extends_one].
  - cbn [whole byteLength Nat.eqb]. cbv zeta.
    destruct (subtle_encrypt _ _ _); cbn; [apply extends_one|apply extends_two].
Qed.

Lemma decrypt_extends key iv ct opts w :
  extends (heap w) (heap (snd (decrypt key iv ct opts w))).
Proof.
  rewrite decrypt_computes'.
  destruct (byteLength iv =? 12)%nat; [|apply extends_refl]. cbv zeta.
  destruct (subtle_decrypt _ _ _); cbn; [apply extends_refl|apply extends_one].
Qed.

Lemma importKey_extends rawKey w :
  extends (heap w) (heap (snd (importKey rawKey w))).
Proof.
  rewrite importKey_computes.
  destruct (byteLength rawKey =? 32)%nat; [|apply extends_refl]. cbv zeta.
  destruct (import_raw _); cbn; apply extends_one.
Qed.

(** X11. [encrypt], [decrypt], [importKey] and [randomIv] only ever add
    buffers, whether they succeed or fail: every array the caller held
    before the call (plaintext, raw key, iv, aad, ciphertext) reads the
    same bytes after it. *)
Theorem cipher_calls_leave_buffers_alone (key : CryptoKey)
    (pt ct iv rawKey : Uint8Array) (opts : AesGcmOptions) (w : world)
    (v : Uint8Array) :
  live (heap w) v ->
  view_bytes (heap (snd (encrypt key pt opts w))) v = view_bytes (heap w) v /\
  view_bytes (heap (snd (decrypt key iv ct opts w))) v = view_bytes (heap w) v /\
  view_bytes (heap (snd (importKey rawKey w))) v = view_bytes (heap w) v /\
  view_bytes (heap (snd (randomIv w))) v = view_bytes (heap w) v.
Proof.
  intros Hv. repeat split.
  - apply view_bytes_extends; [apply encrypt_extends|exact Hv].
  - apply view_bytes_extends; [apply decrypt_extends|exact Hv].
  - apply view_bytes_extends; [apply importKey_extends|exact Hv].
  - rewrite randomIv_computes. cbn [snd after_randomIv heap].
    now apply view_bytes_old.
Qed.

(** X12. [randomIv] never throws.  It makes one [getRandomValues] call
    for 12 bytes and returns a new 12-element array holding the bytes the
    provider gave; [encrypt] and [decrypt] then never reject that array
    with InvalidIvLength. *)
Theorem randomIv_is_accepted (key : CryptoKey) (pt ct : Uint8Array)
    (opts : AesGcmOptions) (w : world) :
  exists iv w',
    randomIv w = (inr iv, w') /\
    byteLength iv = 12%nat /\
    ~ live (heap w) iv /\ valid (heap w') iv /\
    view_bytes (heap w') iv = fst (random_bytes 12 (entropy w)) /\
    calls w' = calls w ++ [GetRandomValues 12] /\
    fst (encrypt key pt {| opts_iv := Some iv; opts_aad := opts_aad opts;
                           opts_tagLength := opts_tagLength opts |} w')
      <> inl InvalidIvLength /\
    fst (decrypt key iv ct opts w') <> inl InvalidIvLength.
Proof.
  do 2 eexists. split; [apply randomIv_computes|].
  split; [reflexivity|].
  split; [unfold live, whole; cbn [buffer]; lia|].
  split.
  { split.
    - unfold live, whole, after_randomIv. cbn [buffer heap].
      rewrite length_app. cbn [length]. lia.
    - unfold view_ok, whole, after_randomIv.
      cbn [buffer byteOffset byteLength heap].
      rewrite buffer_bytes_alloc, length_random_bytes. lia. }
  split; [apply view_bytes_randomIv|]. split; [reflexivity|].
  split.
  - rewrite encrypt_with_iv. cbn [whole byteLength Nat.eqb]. cbv zeta.
    destruct (subtle_encrypt _ _ _) as [rej|c]; cbn [fst]; [|discriminate].
    intros H. injection H as H. now apply rejection_not_Error in H.
  - rewrite decrypt_computes'. cbn [whole byteLength Nat.eqb]. cbv zeta.
    destruct (subtle_decrypt _ _ _) as [rej|c]; cbn [fst]; [|discriminate].
    intros H. injection H as H. now apply rejection_not_Error in H.
Qed.

(** X13. [importKey] hands the provider a copy: the key is imported from
    the bytes the array held when [importKey] was called, the copy is the
    one buffer the call adds, and a store through the caller's array
    afterwards does not reach it. *)
Theorem importKey_copies_key_material (rawKey : Uint8Array) (w w' : world)
    (key : CryptoKey) :
  importKey rawKey w = (inr key, w') -> live (heap w) rawKey ->
  import_raw (view_bytes (heap w) rawKey) = inr key /\
  heap w' = heap w ++ [view_bytes (heap w) rawKey] /\
  (forall i x,
     buffer_bytes (heap (snd (store_byte rawKey i x w'))) (length (heap w))
     = view_bytes (heap w) rawKey).
Proof.
  rewrite importKey_computes.
  destruct (byteLength rawKey =? 32)%nat; [|discriminate]. cbv zeta.
  destruct (import_raw _) as [rej|k] eqn:E; [discriminate|].
  intros [= <- <-] Hl. split; [reflexivity|]. split; [reflexivity|].
  intros i x. rewrite store_byte_other by (unfold live in Hl; lia).
  cbn [logged allocated heap]. apply buffer_bytes_alloc.
Qed.

(** X14. [decrypt] either returns a view of one new buffer, holding
    exactly the bytes the provider's decryption was fulfilled with, or it
    fails and the heap is as before: no plaintext, whole or partial, is
    left anywhere. *)
Theorem decrypt_all_or_nothing (key : CryptoKey) (iv ct : Uint8Array)
    (opts : AesGcmOptions) (w : world) :
  match decrypt key iv ct opts w with
  | (inr p, w') =>
      ~ live (heap w) p /\
      heap w' = heap w ++ [view_bytes (heap w') p] /\
      byteLength iv = 12%nat /\
      subtle_decrypt
        (algorithm_of (heap w) iv (opts_aad opts) (opts_tagLength opts))
        key (view_bytes (heap w) ct)
      = inr (view_bytes (heap w') p)
  | (inl e, w') => heap w' = heap w
  end.
Proof.
  rewrite decrypt_computes'.
  destruct (Nat.eqb_spec (byteLength iv) 12) as [E|E]; [|reflexivity].
  cbv zeta.
  destruct (subtle_decrypt _ _ _) as [rej|bytes] eqn:Hd; [reflexivity|].
  cbn [allocated logged heap]. rewrite view_bytes_fresh.
  split; [unfold live, whole; cbn [buffer]; lia|]. auto.
Qed.

End Frame.

Section RoundTrips.
Context `{host : Host}.

(** X15. With the iv left out, for a key admitted by [importKey] and a
    legal tag length (128 when absent), [encrypt] succeeds with a 12-byte
    iv of its own, and [decrypt] with the iv and ciphertext of the result
    returns the plaintext. *)
Theorem generated_iv_round_trip (laws : HostLaws host)
    (rawKey : Uint8Array) (w0 w1 : world) (key : CryptoKey)
    (pt : Uint8Array) (aad : option Uint8Array) (t : option Z) (w : world) :
  importKey rawKey w0 = (inr key, w1) ->
  live (heap w) pt ->
  (forall a, aad = Some a -> live (heap w) a) ->
  legal_tagLength (default 128 t) ->
  exists res w' p w'',
    encrypt key pt {| opts_iv := None; opts_aad := aad; opts_tagLength := t |} w
    = (inr res, w') /\
    byteLength (res_iv res) = 12%nat /\
    decrypt key (res_iv res) (res_ciphertext res)
      {| opts_iv := None; opts_aad := aad; opts_tagLength := t |} w'
    = (inr p, w'') /\
    view_bytes (heap w'') p = view_bytes (heap w) pt.
Proof.
  intros Himp Hpt Haad Ht. apply importKey_admits in Himp.
  rewrite encrypt_without_iv, encrypt_with_iv.
  set (iv := whole (length (heap w)) 12).
  set (wr := after_randomIv w).
  change (byteLength iv =? 12)%nat with true. cbv iota zeta.
  assert (live (heap wr) iv) as Hiv.
  { unfold live, iv, wr, after_randomIv, whole. cbn [buffer heap].
    rewrite length_app. cbn [length]. lia. }
  assert (forall a, aad = Some a -> live (heap wr) a) as Haad'.
  { intros a Ha. specialize (Haad a Ha). unfold live, wr, after_randomIv in *.
    cbn [heap]. rewrite length_app. lia. }
  destruct (encrypt_fulfilled key (algorithm_of (heap wr) iv aad t)
              (view_bytes (heap wr) pt)) as [c Hc]; auto.
  { cbn [algorithm_of alg_iv]. unfold iv, wr.
    rewrite view_bytes_randomIv. apply length_random_bytes. }
  rewrite Hc. do 4 eexists. split; [reflexivity|]. cbn [res_iv res_ciphertext].
  split; [reflexivity|].
  rewrite decrypt_computes.
  change (byteLength iv =? 12)%nat with true. cbv iota zeta.
  cbn [allocated logged heap].
  rewrite algorithm_of_old, view_bytes_fresh by assumption.
  rewrite (decrypt_encrypt _ _ _ _ Himp Hc).
  split; [reflexivity|]. cbn [allocated logged heap].
  rewrite view_bytes_fresh. unfold wr, after_randomIv. cbn [heap].
  now apply view_bytes_old.
Qed.

Lemma toBase64Url_of_computes (v : Uint8Array) (w : world) :
  toBase64Url_of v w = (inr (url_text (view_bytes (heap w) v)), w).
Proof. unfold toBase64Url_of. now rewrite toBase64Url_encode. Qed.

Lemma fromBase64Url_new_computes (B : list byte) (w : world) :
  fromBase64Url_new (url_text B) w
  = (inr (whole (length (heap w)) (length B)), allocated B w).
Proof.
  unfold fromBase64Url_new, url_text. rewrite fromBase64Url_toBase64Url.
  reflexivity.
Qed.

(** X16. The usage of the README works for every plaintext: with a key
    admitted by [importKey], encrypting under a fresh iv, packing iv and
    ciphertext into one text, splitting and decoding that text and
    decrypting returns the plaintext bytes. *)
Theorem demo_transport_returns_plaintext (laws : HostLaws host)
    (rawKey : Uint8Array) (w0 w1 : world) (key : CryptoKey)
    (pt : Uint8Array) (w : world) :
  importKey rawKey w0 = (inr key, w1) ->
  live (heap w) pt ->
  exists p w',
    demo_transport key pt w = (inr p, w') /\
    view_bytes (heap w') p = view_bytes (heap w) pt.
Proof.
  intros Himp Hpt. apply importKey_admits in Himp.
  unfold demo_transport. unfold mbind at 1. unfold M_bind at 1.
  rewrite randomIv_computes.
  set (iv := whole (length (heap w)) 12).
  set (wr := after_randomIv w).
  assert (view_bytes (heap wr) iv = fst (random_bytes 12 (entropy w))) as Hnonce
    by apply view_bytes_randomIv.
  set (nonce := fst (random_bytes 12 (entropy w))) in *.
  assert (length nonce = 12%nat) as Hlen by apply length_random_bytes.
  assert (live (heap wr) iv) as Hiv.
  { unfold live, iv, wr, after_randomIv, whole. cbn [buffer heap].
    rewrite length_app. cbn [length]. lia. }
  unfold mbind at 1. unfold M_bind at 1.
  rewrite encrypt_with_iv.
  change (byteLength iv =? 12)%nat with true. cbv iota zeta.
  destruct (encrypt_fulfilled key (algorithm_of (heap wr) iv None None)
              (view_bytes (heap wr) pt)) as [c Hc]; auto.
  { cbn [algorithm_of alg_iv]. now rewrite Hnonce. }
  { unfold legal_tagLength. cbn. auto 6. }
  rewrite Hc. cbn [res_ciphertext].
  set (we := allocated c (logged _ wr)).
  assert (heap we = heap wr ++ [c]) as Hwe by reflexivity.
  unfold mbind at 1. unfold M_bind at 1.
  rewrite toBase64Url_of_computes.
  unfold mbind at 1. unfold M_bind at 1.
  rewrite toBase64Url_of_computes.
  rewrite Hwe, (view_bytes_old _ _ iv Hiv), Hnonce, view_bytes_fresh.
  rewrite split_packed.
  unfold mbind at 1. unfold M_bind at 1.
  rewrite fromBase64Url_new_computes.
  unfold mbind at 1. unfold M_bind at 1.
  rewrite fromBase64Url_new_computes.
  rewrite decrypt_computes'. unfold no_opts. cbn [opts_aad opts_tagLength].
  rewrite Hlen.
  change (byteLength (whole (length (heap we)) 12) =? 12)%nat with true.
  cbv iota zeta. cbn [allocated heap].
  rewrite view_bytes_fresh.
  assert (algorithm_of ((heap we ++ [nonce]) ++ [c])
            (whole (length (heap we)) 12) None None
          = algorithm_of (heap wr) iv None None) as ->.
  { unfold algorithm_of. f_equal. rewrite Hnonce.
    rewrite view_bytes_old
      by (unfold live, whole; cbn [buffer]; rewrite length_app; cbn [length]; lia).
    rewrite <- Hlen. apply view_bytes_fresh. }
  rewrite (decrypt_encrypt _ _ _ _ Himp Hc).
  do 2 eexists. split; [reflexivity|].
  cbn [allocated logged heap]. rewrite view_bytes_fresh.
  unfold wr, after_randomIv. cbn [heap]. now apply view_bytes_old.
Qed.

End RoundTrips.

(** * Further properties: [deriveKeyFromPassword] *)

Section DeriveProps.
Context `{host : Host} {kdf : KdfHost host}.

Lemma deriveKeyFromPassword_computes password salt iterations
    while_importing while_deriving w :
  deriveKeyFromPassword password salt iterations while_importing
    while_deriving w
  = derivation password salt iterations while_importing while_deriving w.
Proof.
  unfold deriveKeyFromPassword, derivation, import_settled,
    TextEncoder_encode, suspended, crypto_subtle_importKey, slice,
    crypto_subtle_deriveBits, suspended, Uint8Array_of_buffer.
  unfold mbind, M_bind, log, await, alloc, throw, mret, M_ret.
  cbn [heap entropy calls fst snd].
  assert (view_bytes (heap w ++ [text_encode password])
            {| buffer := length (heap w); byteOffset := 0;
               byteLength := length (text_encode password) |}
          = text_encode password) as -> by apply view_bytes_fresh.
  unfold logged, allocated.
  destruct (subtle_importKey _ _ _ _ _) as [rej|baseKey];
    cbn [fst snd]; [reflexivity|].
  set (w1 := while_importing _).
  cbn [heap entropy calls].
  assert (view_bytes (heap w1 ++ [view_bytes (heap w1) salt])
            {| buffer := length (heap w1);
               byteOffset := 0; byteLength := byteLength salt |}
          = view_bytes (heap w1) salt) as ->.
  { unfold view_bytes at 1. cbn [buffer byteOffset byteLength drop].
    rewrite buffer_bytes_alloc. unfold view_bytes. apply take_idemp. }
  replace (default 150000 iterations)
    with (match iterations with Some n => n | None => 150000 end)
    by now destruct iterations.
  destruct (subtle_deriveBits _ _ _) as [rej|derived];
    cbn [fst snd]; [reflexivity|].
  cbn [heap entropy calls].
  rewrite buffer_bytes_alloc. reflexivity.
Qed.

Lemma extends_trans h1 h2 h3 :
  extends h1 h2 -> extends h2 h3 -> extends h1 h3.
Proof.
  intros [a ->] [b ->]. exists (a ++ b). now rewrite app_assoc.
Qed.

Lemma extends_live h h' v : extends h h' -> live h v -> live h' v.
Proof.
  intros [a ->]. unfold live. rewrite length_app. lia.
Qed.

(** X17. [deriveKeyFromPassword] checks nothing itself.  It imports the
    encoded password as a PBKDF2 base key; when the provider rejects that,
    the rejection is rethrown and nothing is derived.  Otherwise it asks
    for 256 bits of PBKDF2 with SHA-256, the iterations as given (150000
    when left out) and a copy of the salt, and returns the provider's bits
    in a new array, or rethrows its rejection.  The salt is read when the
    import has settled, not when the function is called: the salt handed
    to the provider holds what the array holds then, whatever ran in
    between.  It never throws an error of its own.  When the code that runs
    while it is suspended only adds buffers, the salt is the one of the
    call, and the whole call only adds buffers: it never writes to the
    salt or any other existing buffer. *)
Theorem deriveKeyFromPassword_forwards (password : jsstring)
    (salt : Uint8Array) (iterations : option Z)
    (while_importing while_deriving : world -> world) (w : world) :
  let r := deriveKeyFromPassword password salt iterations while_importing
             while_deriving w in
  let salt_bytes :=
    view_bytes (heap (import_settled password while_importing w)) salt in
  r = derivation password salt iterations while_importing while_deriving w /\
  (forall m, fst r <> inl (Error m)) /\
  (forall out, fst r = inr out ->
     exists baseKey,
       subtle_importKey "raw" (text_encode password) "PBKDF2" false
         ["deriveBits"]%string = inr baseKey /\
       subtle_deriveBits
         {| kdf_name := "PBKDF2"; kdf_hash := "SHA-256";
            kdf_salt := salt_bytes;
            kdf_iterations := match iterations with
                              | Some n => n
                              | None => 150000
                              end |} baseKey 256
       = inr (view_bytes (heap (snd r)) out)) /\
  (only_adds while_importing -> only_adds while_deriving ->
   live (heap w) salt ->
   salt_bytes = view_bytes (heap w) salt /\
   extends (heap w) (heap (snd r)) /\
   (forall out, fst r = inr out -> ~ live (heap w) out)).
Proof.
  intros r salt_bytes. subst r. rewrite deriveKeyFromPassword_computes.
  unfold derivation. cbv zeta. fold salt_bytes.
  split; [reflexivity|].
  set (w1 := import_settled password while_importing w).
  set (w2 := while_deriving (allocated salt_bytes w1)).
  assert (only_adds while_importing -> only_adds while_deriving ->
          extends (heap w) (heap w1) /\ extends (heap w) (heap w2))
    as Hext.
  { intros H1 H2.
    assert (extends (heap w) (heap w1)) as E1.
    { eapply extends_trans; [|apply H1]. cbn. apply extends_one. }
    split; [exact E1|].
    eapply extends_trans; [|apply H2].
    eapply extends_trans; [exact E1|]. cbn. apply extends_one. }
  assert (only_adds while_importing -> live (heap w) salt ->
          salt_bytes = view_bytes (heap w) salt) as Hsalt.
  { intros H1 Hl. unfold salt_bytes.
    apply view_bytes_extends; [|exact Hl].
    eapply extends_trans; [|apply H1]. cbn. apply extends_one. }
  destruct (subtle_importKey _ _ _ _ _) as [rej|baseKey]; cbn [fst snd].
  - split; [intros m H; injection H as H; now apply rejection_not_Error in H|].
    split; [discriminate|].
    intros H1 H2 Hl. split; [now apply Hsalt|].
    split; [now apply Hext|discriminate].
  - destruct (subtle_deriveBits _ _ _) as [rej|derived] eqn:Hd; cbn [fst snd].
    + split; [intros m H; injection H as H; now apply rejection_not_Error in H|].
      split; [discriminate|].
      intros H1 H2 Hl. split; [now apply Hsalt|].
      split; [now apply Hext|discriminate].
    + split; [discriminate|]. split.
      * intros out [= <-]. exists baseKey. split; [reflexivity|].
        cbn [allocated heap]. rewrite Hd. f_equal. symmetry.
        apply view_bytes_fresh.
      * intros H1 H2 Hl. split; [now apply Hsalt|].
        destruct (Hext H1 H2) as [_ E2]. split.
        -- eapply extends_trans; [exact E2|]. cbn. apply extends_one.
        -- intros out [= <-]. destruct E2 as [added E2].
           unfold live, whole. cbn [buffer]. rewrite E2, length_app. lia.
Qed.

(** X18. A derived key is a key [importKey] takes: given that the
    provider returns as many bits as were asked for, what
    [deriveKeyFromPassword] returns has 32 bytes, and [importKey] imports
    it, from exactly the derived bytes. *)
Theorem derived_key_is_admitted (laws : HostLaws host)
    (bits_ok : deriveBits_length) (password : jsstring) (salt : Uint8Array)
    (iterations : option Z) (while_importing while_deriving : world -> world)
    (w w' : world) (dk : Uint8Array) :
  live (heap w) salt ->
  deriveKeyFromPassword password salt iterations while_importing
    while_deriving w = (inr dk, w') ->
  byteLength dk = 32%nat /\
  valid (heap w') dk /\
  exists key w'',
    importKey dk w' = (inr key, w'') /\
    import_raw (view_bytes (heap w') dk) = inr key.
Proof.
  intros Hsalt. rewrite deriveKeyFromPassword_computes.
  unfold derivation. cbv zeta.
  destruct (subtle_importKey _ _ _ _ _) as [rej|baseKey]; [discriminate|].
  destruct (subtle_deriveBits _ _ _) as [rej|derived] eqn:Hd; [discriminate|].
  intros [= <- <-]. apply bits_ok in Hd.
  assert (length derived = 32%nat) as Hlen by lia.
  unfold whole. cbn [byteLength allocated heap].
  set (h := heap (while_deriving _)).
  assert (view_bytes (h ++ [derived])
            {| buffer := length h; byteOffset := 0;
               byteLength := length derived |} = derived) as Hb
    by apply view_bytes_fresh.
  split; [exact Hlen|]. split.
  { split.
    - unfold live. cbn [buffer]. rewrite length_app. cbn [length]. lia.
    - unfold view_ok. cbn [buffer byteOffset byteLength].
      rewrite buffer_bytes_alloc. lia. }
  rewrite importKey_computes. cbn [byteLength]. rewrite Hlen.
  cbn [Nat.eqb]. cbv zeta. cbn [heap allocated].
  rewrite Hlen in Hb. fold h. rewrite Hb.
  destruct (import_raw_256 derived Hlen) as [key Hkey].
  rewrite Hkey. eauto.
Qed.

End DeriveProps.

(** * The further properties on concrete inputs *)

Lemma kdf_host_laws : HostLaws KdfModel.kdf_host.
Proof.
  split.
  - intros raw Hraw. exists raw.
    unfold import_raw. cbn.
    unfold KdfModel.kdf_importKey, ModelHost.model_importKey.
    rewrite Hraw. reflexivity.
  - intros key alg pt ct _. cbn.
    unfold ModelHost.model_encrypt, ModelHost.model_decrypt.
    destruct (ModelHost.supported alg); [|discriminate].
    intros [= <-]. cbv zeta.
    assert (length (ModelHost.tag alg key pt)
            = Z.to_nat (alg_tagLength alg / 8)) as Hn
      by apply length_replicate.
    rewrite length_app, Hn.
    replace (length pt + Z.to_nat (alg_tagLength alg / 8)
             - Z.to_nat (alg_tagLength alg / 8))%nat
      with (length pt) by lia.
    rewrite take_app_length, drop_app_length, bytes_eqb_refl.
    replace (_ <=? _)%nat with true; [reflexivity|].
    symmetry. apply Nat.leb_le. lia.
  - intros key alg pt _ Hname Hiv Ht. cbn.
    unfold ModelHost.model_encrypt, ModelHost.supported.
    rewrite Hname, Hiv.
    destruct Ht as [->|[->|[->|[->| ->]]]]; eexists; reflexivity.
Qed.

Lemma kdf_model_bits :
  @deriveBits_length KdfModel.kdf_host KdfModel.kdf_model.
Proof.
  intros params baseKey bits derived. cbn. unfold KdfModel.kdf_deriveBits.
  destruct (0 <? kdf_iterations params); [|discriminate].
  destruct (Z.leb_spec 0 bits); [|discriminate].
  destruct (Z.eqb_spec (bits mod 8) 0); [|discriminate].
  cbn [andb]. intros [= <-]. rewrite length_replicate. lia.
Qed.

Lemma demo_valid_pt : valid (heap demo_world) (whole 1 2).
Proof. split; [unfold live|unfold view_ok]; vm_compute; lia. Qed.

Lemma demo_valid_aad : valid (heap demo_world) (whole 3 1).
Proof. split; [unfold live|unfold view_ok]; vm_compute; lia. Qed.

Lemma demo_valid_iv : valid (heap demo_world) (whole 2 12).
Proof. split; [unfold live|unfold view_ok]; vm_compute; lia. Qed.

Lemma demo_importKey :
  importKey (whole 0 32) demo_world
  = (inr key_bytes, snd (importKey (whole 0 32) demo_world)).
Proof. reflexivity. Qed.

Lemma concatBytes_new_buffer_witness :
  exists out w',
    @concatBytes model_host (whole 1 2) (whole 3 1) demo_world = (inr out, w') /\
    view_bytes (heap w') out = [x68; x69; x01].
Proof.
  destruct (concatBytes_new_buffer (host := model_host) (whole 1 2) (whole 3 1)
              demo_world demo_valid_pt demo_valid_aad)
    as (out & w' & H & _ & Hb & _).
  exists out, w'. split; [exact H|exact Hb].
Defined.

Lemma concatBytes_associative_witness :
  exists o1 w1 o2 w2,
    (ab ← @concatBytes model_host (whole 1 2) (whole 3 1);
     concatBytes ab (whole 2 12)) demo_world = (inr o1, w1) /\
    (bc ← @concatBytes model_host (whole 3 1) (whole 2 12);
     concatBytes (whole 1 2) bc) demo_world = (inr o2, w2) /\
    view_bytes (heap w1) o1 = view_bytes (heap w2) o2.
Proof.
  destruct (proj1 (concatBytes_associative (host := model_host)
                     (whole 1 2) (whole 3 1) (whole 2 12) demo_world
                     demo_valid_pt demo_valid_aad demo_valid_iv))
    as (o1 & w1 & o2 & w2 & H1 & H2 & B1 & B2).
  exists o1, w1, o2, w2. split; [exact H1|]. split; [exact H2|].
  now rewrite B1, B2.
Defined.

Lemma cipher_calls_leave_buffers_alone_witness :
  view_bytes
    (heap (snd (encrypt key_bytes (whole 1 2) demo_opts demo_world)))
    (whole 1 2)
  = view_bytes (heap demo_world) (whole 1 2).
Proof.
  apply (cipher_calls_leave_buffers_alone (host := model_host) key_bytes
           (whole 1 2) (whole 1 2) (whole 2 12) (whole 0 32) demo_opts
           demo_world (whole 1 2)).
  exact (proj1 demo_valid_pt).
Defined.

Lemma generated_iv_round_trip_witness :
  exists res w' p w'',
    encrypt key_bytes (whole 1 2)
      {| opts_iv := None; opts_aad := Some (whole 3 1);
         opts_tagLength := None |} demo_world = (inr res, w') /\
    decrypt key_bytes (res_iv res) (res_ciphertext res)
      {| opts_iv := None; opts_aad := Some (whole 3 1);
         opts_tagLength := None |} w' = (inr p, w'') /\
    view_bytes (heap w'') p = pt_bytes.
Proof.
  assert (forall a, Some (whole 3 1) = Some a -> live (heap demo_world) a)
    as Haad by (intros a [= <-]; exact (proj1 demo_valid_aad)).
  assert (legal_tagLength (default 128 None)) as Ht
    by (unfold legal_tagLength; cbn; auto 6).
  destruct (generated_iv_round_trip model_host_laws _ _ _ _
              (whole 1 2) (Some (whole 3 1)) None demo_world
              demo_importKey (proj1 demo_valid_pt) Haad Ht)
    as (res & w' & p & w'' & Henc & _ & Hdec & Hb).
  exists res, w', p, w''. split; [exact Henc|]. split; [exact Hdec|exact Hb].
Defined.

Lemma importKey_copies_key_material_witness :
  heap (snd (importKey (whole 0 32) demo_world))
  = heap demo_world ++ [key_bytes].
Proof.
  exact (proj1 (proj2 (importKey_copies_key_material (host := model_host)
                         (whole 0 32) demo_world _ key_bytes demo_importKey
                         ltac:(unfold live; vm_compute; lia)))).
Defined.

Lemma demo_transport_returns_plaintext_witness :
  exists p w',
    demo_transport key_bytes (whole 1 2) demo_world = (inr p, w') /\
    view_bytes (heap w') p = pt_bytes.
Proof.
  destruct (demo_transport_returns_plaintext model_host_laws _ _ _ _
              (whole 1 2) demo_world demo_importKey (proj1 demo_valid_pt))
    as (p & w' & H & Hb).
  exists p, w'. split; [exact H|exact Hb].
Defined.

Lemma kdf_salt_live : live (heap KdfModel.kdf_world) (whole 0 3).
Proof. unfold live. vm_compute. lia. Qed.

Lemma deriveKeyFromPassword_forwards_witness :
  exists out w' baseKey,
    @deriveKeyFromPassword KdfModel.kdf_host KdfModel.kdf_model
      (js "secret") (whole 0 3) None KdfModel.late_store KdfModel.nothing
      KdfModel.kdf_world = (inr out, w') /\
    view_bytes (heap KdfModel.kdf_world) (whole 0 3) = [x01; x02; x03] /\
    @subtle_deriveBits KdfModel.kdf_host KdfModel.kdf_model
      {| kdf_name := "PBKDF2"; kdf_hash := "SHA-256";
         kdf_salt := [x01; xff; x03]; kdf_iterations := 150000 |}
      baseKey 256
    = inr (view_bytes (heap w') out).
Proof.
  assert (exists out w',
            @deriveKeyFromPassword KdfModel.kdf_host KdfModel.kdf_model
              (js "secret") (whole 0 3) None KdfModel.late_store
              KdfModel.nothing KdfModel.kdf_world
            = (inr out, w')) as (out & w' & Hd)
    by (do 2 eexists; vm_compute; reflexivity).
  pose proof (deriveKeyFromPassword_forwards (kdf := KdfModel.kdf_model)
                (js "secret") (whole 0 3) None
                KdfModel.late_store KdfModel.nothing KdfModel.kdf_world)
    as H.
  cbv zeta in H. destruct H as (_ & _ & H & _).
  rewrite Hd in H. destruct (H out eq_refl) as (baseKey & _ & Hbits).
  exists out, w', baseKey. split; [exact Hd|]. split; [reflexivity|].
  exact Hbits.
Defined.

Lemma derived_key_is_admitted_witness :
  exists dk w' key w'',
    @deriveKeyFromPassword KdfModel.kdf_host KdfModel.kdf_model
      (js "secret") (whole 0 3) None KdfModel.late_store KdfModel.nothing
      KdfModel.kdf_world = (inr dk, w') /\
    byteLength dk = 32%nat /\
    importKey dk w' = (inr key, w'').
Proof.
  assert (exists dk w',
            @deriveKeyFromPassword KdfModel.kdf_host KdfModel.kdf_model
              (js "secret") (whole 0 3) None KdfModel.late_store
              KdfModel.nothing KdfModel.kdf_world
            = (inr dk, w')) as (dk & w' & Hd)
    by (do 2 eexists; vm_compute; reflexivity).
  destruct (derived_key_is_admitted kdf_host_laws kdf_model_bits _ _ _ _ _ _
              _ _ kdf_salt_live Hd) as (Hlen & _ & key & w'' & Hk & _).
  exists dk, w', key, w''. split; [exact Hd|]. split; [exact Hlen|exact Hk].
Defined.

Lemma toBase64_in_pieces_witness :
  (exists sa sb,
     toBase64 [x01; x02; x03] = inr sa /\ toBase64 [x04] = inr sb /\
     toBase64 ([x01; x02; x03] ++ [x04]) = inr (sa ++ sb)) /\
  (exists sa sb,
     toBase64 [x01] = inr sa /\ toBase64 [x02] = inr sb /\
     fromBase64 (sa ++ sb) = inl InvalidEncoding).
Proof.
  split.
  - destruct (toBase64_in_pieces [x01; x02; x03] [x04])
      as (sa & sb & Ha & Hb & H0 & _).
    exists sa, sb. split; [exact Ha|]. split; [exact Hb|].
    apply H0. reflexivity.
  - destruct (toBase64_in_pieces [x01] [x02])
      as (sa & sb & Ha & Hb & _ & H1).
    exists sa, sb. split; [exact Ha|]. split; [exact Hb|].
    apply H1; discriminate.
Defined.
